(** * fsmvhdlgenerator: the finite-state-machine core

    A shallow embedding of the domain model of [fsmvhdlgenerator]
    (modules [finitestatemachine.condition], [finitestatemachine.state],
    [finitestatemachine.transition] and [utils.filtered_collections]) and
    the properties of its specification.

    Python objects are compared by identity unless a class says otherwise,
    so States, Transitions and Conditions are handles ([ref]) into a heap
    of records; sets of objects are finite sets of handles.  Failing calls
    return [Raise e]. *)

From Stdlib Require Import Ascii String.
From stdpp Require Import gmap strings list.

Local Open Scope string_scope.
Local Open Scope nat_scope.
Local Set Warnings "-register-all,-clear-no-such-hyp".

(** ** Exceptions and results *)

Inductive exn : Type :=
  | TypeError
  | ValueError
  | IndexError
  | ParseError
  | ConditionExpressionError
  | ConditionConversionError
  | UnreachableState
  | UnexitableState.

Global Instance exn_eq_dec : EqDecision exn.
Proof. solve_decision. Defined.

(** [ConditionExpressionError] and [ConditionConversionError] subclass
    [ValueError]. *)
Definition ValueError_class (e : exn) : bool :=
  match e with
  | ValueError | ConditionExpressionError | ConditionConversionError => true
  | _ => false
  end.

Inductive result (A : Type) : Type :=
  | Ok (a : A)
  | Raise (e : exn).
Arguments Ok {A} a.
Arguments Raise {A} e.

Definition bind {A B} (r : result A) (k : A → result B) : result B :=
  match r with
  | Ok a => k a
  | Raise e => Raise e
  end.

Notation "x <~ r ;; k" := (bind r (fun x => k))
  (at level 100, r at next level, right associativity).

Section MapM.
Context {A B : Type} (f : A → result B).

Fixpoint mapM_result (l : list A) : result (list B) :=
  match l with
  | [] => Ok []
  | a :: l' => b <~ f a ;; bs <~ mapM_result l' ;; Ok (b :: bs)
  end.
End MapM.

(** Object identity. *)
Abbreviation ref := nat (only parsing).

(** ** The expression engine

    The expressions come from the [boolean] package, a dependency that is
    not part of the sources; what the core relies on is modelled in this
    module. *)
Module Boolean.

(** Modelled from the spec: the tagged variant of expressions of the
    [boolean] package ([BaseElement] TRUE/FALSE, [Symbol], [NOT], [AND],
    [OR]), which is not among the sources. *)
Inductive Expression : Type :=
  | Literal (b : bool)
  | Var (n : string)
  | Not (e : Expression)
  | And (args : list Expression)
  | Or (args : list Expression).

Abbreviation TRUE := (Literal true).
Abbreviation FALSE := (Literal false).

Global Instance Expression_inhabited : Inhabited Expression := populate FALSE.

(** The classes the lowering dispatches on. *)
Inductive class : Type := Symbol | BaseElement | OR | AND | NOT.

Definition isinstance (e : Expression) (c : class) : bool :=
  match e, c with
  | Var _, Symbol | Literal _, BaseElement
  | Or _, OR | And _, AND | Not _, NOT => true
  | _, _ => false
  end.

(** [expression.args]: the operands; literals and symbols have none. *)
Definition args (e : Expression) : list Expression :=
  match e with
  | Not a => [a]
  | And l | Or l => l
  | _ => []
  end.

(** Modelled from the spec: [symbols(expr) -> set of Symbol]. *)
Fixpoint symbols (e : Expression) : gset string :=
  match e with
  | Literal _ => ∅
  | Var n => {[ n ]}
  | Not a => symbols a
  | And l | Or l => ⋃ (map symbols l)
  end.

(** [str(symbol)] is the name of the symbol; [pretty()] of a literal is
    its upper-case name. *)
Definition str (e : Expression) : string :=
  match e with
  | Var n => n
  | _ => ""
  end.
Definition pretty (e : Expression) : string :=
  match e with
  | Literal true => "TRUE"
  | Literal false => "FALSE"
  | _ => ""
  end.

(** The truth value Python takes of an expression object
    ([Expression.__bool__] of the [boolean] package, which the spec does
    not describe): TRUE is true and FALSE is false, as [test_evaluate]
    relies on; any other expression refuses with TypeError. *)
Definition Expression_bool (e : Expression) : result bool :=
  match e with
  | Literal b => Ok b
  | _ => Raise TypeError
  end.

(** *** Substitution with simplification *)

Definition is_lit (v : bool) (e : Expression) : bool :=
  match e with Literal b => Bool.eqb b v | _ => false end.

Definition simplify_not (a : Expression) : Expression :=
  match a with
  | Literal b => Literal (negb b)
  | Not a' => a'
  | _ => Not a
  end.

(** [FALSE] absorbs a conjunction and [TRUE] is its identity. *)
Definition simplify_and (l : list Expression) : Expression :=
  if existsb (is_lit false) l then FALSE
  else match List.filter (λ e, negb (is_lit true e)) l with
       | [] => TRUE
       | [a] => a
       | l' => And l'
       end.

Definition simplify_or (l : list Expression) : Expression :=
  if existsb (is_lit true) l then TRUE
  else match List.filter (λ e, negb (is_lit false e)) l with
       | [] => FALSE
       | [a] => a
       | l' => Or l'
       end.

(** Modelled from the spec: [substitute(expr, bindings)] of the
    expression engine ([Expression.subs(..., simplify=True)] of the
    [boolean] package, not among the sources): bound variables are
    replaced, then constant subtrees are simplified bottom-up (double
    negation, absorption and identity of AND/OR); unbound variables stay
    symbolic. *)
Fixpoint subs (substitutions : gmap string Expression) (e : Expression)
  : Expression :=
  match e with
  | Literal b => Literal b
  | Var n => default (Var n) (substitutions !! n)
  | Not a => simplify_not (subs substitutions a)
  | And l => simplify_and (map (subs substitutions) l)
  | Or l => simplify_or (map (subs substitutions) l)
  end.

(** *** Parsing *)

Inductive token : Type :=
  | TOr | TAnd | TNot | TLpar | TRpar | TTrue | TFalse
  | TSym (n : string).

Definition is_letter (c : ascii) : bool :=
  let n := nat_of_ascii c in
  ((65 <=? n) && (n <=? 90) || (97 <=? n) && (n <=? 122))%nat.
Definition is_digit (c : ascii) : bool :=
  let n := nat_of_ascii c in ((48 <=? n) && (n <=? 57))%nat.
Definition is_blank (c : ascii) : bool :=
  let n := nat_of_ascii c in
  ((n =? 32) || (n =? 9) || (n =? 10) || (n =? 13))%nat.

Definition lower_ascii (c : ascii) : ascii :=
  let n := nat_of_ascii c in
  if ((65 <=? n) && (n <=? 90))%nat then ascii_of_nat (n + 32) else c.

(** [str.lower]. *)
Fixpoint lower (s : string) : string :=
  match s with
  | EmptyString => EmptyString
  | String c s' => String (lower_ascii c) (lower s')
  end.

(** A finished word is a keyword (case-insensitive) or a symbol. *)
Definition word_token (w : string) : token :=
  let k := lower w in
  if String.eqb k "or" then TOr
  else if String.eqb k "and" then TAnd
  else if String.eqb k "not" then TNot
  else if String.eqb k "true" then TTrue
  else if String.eqb k "false" then TFalse
  else TSym w.

Definition flush (w : string) (ts : list token) : list token :=
  match w with
  | EmptyString => ts
  | _ => word_token w :: ts
  end.

Definition punct_token (c : ascii) : option token :=
  if Ascii.eqb c "|" || Ascii.eqb c "," then Some TOr
  else if Ascii.eqb c "&" then Some TAnd
  else if Ascii.eqb c "!" || Ascii.eqb c "~" then Some TNot
  else if Ascii.eqb c "(" then Some TLpar
  else if Ascii.eqb c ")" then Some TRpar
  else if Ascii.eqb c "0" then Some TFalse
  else if Ascii.eqb c "1" then Some TTrue
  else None.

(** [w] is the word being read. Words match [[A-Za-z][A-Za-z0-9_]*]. *)
Fixpoint tokenize (w : string) (s : string) : result (list token) :=
  match s with
  | EmptyString => Ok (flush w [])
  | String c s' =>
      if is_letter c
         || (negb (String.eqb w "") && (is_digit c || Ascii.eqb c "_"))
      then tokenize (w +:+ String c EmptyString) s'
      else if is_blank c then ts <~ tokenize "" s' ;; Ok (flush w ts)
      else match punct_token c with
           | Some t => ts <~ tokenize "" s' ;; Ok (flush w (t :: ts))
           | None => Raise ParseError
           end
  end.

(** An operator applied to one operand is that operand. *)
Definition nary (op : list Expression → Expression) (l : list Expression)
  : Expression :=
  match l with
  | [a] => a
  | _ => op l
  end.

(** Recursive descent, lowest precedence first: OR, AND, NOT, atom. The
    operands of one run of a binary operator are collected in one node. *)
Fixpoint parse_or (fuel : nat) (ts : list token)
  : option (Expression * list token) :=
  match fuel with
  | 0 => None
  | S f =>
      match parse_and f ts with
      | Some (e, r) => parse_or_tail f [e] r
      | None => None
      end
  end
with parse_or_tail (fuel : nat) (acc : list Expression) (ts : list token)
  : option (Expression * list token) :=
  match fuel with
  | 0 => None
  | S f =>
      match ts with
      | TOr :: r =>
          match parse_and f r with
          | Some (e, r') => parse_or_tail f (acc ++ [e]) r'
          | None => None
          end
      | _ => Some (nary Or acc, ts)
      end
  end
with parse_and (fuel : nat) (ts : list token)
  : option (Expression * list token) :=
  match fuel with
  | 0 => None
  | S f =>
      match parse_not f ts with
      | Some (e, r) => parse_and_tail f [e] r
      | None => None
      end
  end
with parse_and_tail (fuel : nat) (acc : list Expression) (ts : list token)
  : option (Expression * list token) :=
  match fuel with
  | 0 => None
  | S f =>
      match ts with
      | TAnd :: r =>
          match parse_not f r with
          | Some (e, r') => parse_and_tail f (acc ++ [e]) r'
          | None => None
          end
      | _ => Some (nary And acc, ts)
      end
  end
with parse_not (fuel : nat) (ts : list token)
  : option (Expression * list token) :=
  match fuel with
  | 0 => None
  | S f =>
      match ts with
      | TNot :: r =>
          match parse_not f r with
          | Some (e, r') => Some (Not e, r')
          | None => None
          end
      | TTrue :: r => Some (TRUE, r)
      | TFalse :: r => Some (FALSE, r)
      | TSym n :: r => Some (Var n, r)
      | TLpar :: r =>
          match parse_or f r with
          | Some (e, TRpar :: r') => Some (e, r')
          | _ => None
          end
      | _ => None
      end
  end.

(** Modelled from the spec: [parse(text) -> Expression]
    ([BooleanAlgebra.parse] of the [boolean] package, not among the
    sources), for the grammar OR < AND < NOT < atom with parentheses;
    the literals also read as [0] and [1], which is how
    [AbstractCondition.evaluate] passes binding values. Empty input,
    unknown characters and unbalanced parentheses fail. *)
Definition parse (text : string) : result Expression :=
  ts <~ tokenize "" text ;;
  match parse_or (4 * length ts + 4) ts with
  | Some (e, []) => Ok e
  | _ => Raise ParseError
  end.

End Boolean.

Import Boolean.

(** ** Conditions ([finitestatemachine.condition]) *)
Module Condition.

Record operation : Type := {
  name : string;
  sub : string;
  precedence : nat;
  cls : class;
}.

Definition _operation_list : list operation := [
  {| name := "variable"; sub := ""; precedence := 0; cls := Symbol |};
  {| name := "literal"; sub := ""; precedence := 0; cls := BaseElement |};
  {| name := "or"; sub := " or "; precedence := 1; cls := OR |};
  {| name := "and"; sub := " and "; precedence := 2; cls := AND |};
  {| name := "not"; sub := "not "; precedence := 3; cls := NOT |}
].

(** [AbstractCondition.parse_expression]. *)
Definition parse_expression (expression : string) : result Expression :=
  match parse expression with
  | Raise ParseError => Raise ConditionExpressionError
  | r => r
  end.

(** [str(v)] of a binding value 0 or 1. *)
Definition str_bit (v : bool) : string := if v then "1" else "0".

(** The dictionary comprehension of [AbstractCondition.evaluate]. *)
Fixpoint substitutions_of (arguments : list (string * bool))
  : result (gmap string Expression) :=
  match arguments with
  | [] => Ok ∅
  | (k, v) :: rest =>
      e <~ parse (str_bit v) ;;
      m <~ substitutions_of rest ;;
      Ok (<[k := e]> m)
  end.

(** [AbstractCondition.evaluate]: the expression after substitution and
    simplification. *)
Definition evaluate (expression : Expression)
  (arguments : list (string * bool)) : result Expression :=
  substitutions <~ substitutions_of arguments ;;
  Ok (subs substitutions expression).

(** [AbstractCondition.inputs]. *)
Definition inputs (expression : Expression) : gset string :=
  symbols expression.

(** [set.pop] on a set read as its list of elements. *)
Definition pop (sym : gset string) : string :=
  match elements sym with
  | n :: _ => n
  | [] => ""
  end.

(** [_convert_r] of [AbstractCondition._vhdl]. The operation is the first
    entry of [_operation_list] whose class the expression is an instance
    of (an entry is a non-empty dictionary, so the test [not operation]
    never holds); [converted_args] is
    [[_convert_r(subexp, operation['precedence']) for subexp in expression.args]]. *)
Fixpoint _convert_r (expression : Expression) (last_operator_precednce : nat)
  {struct expression} : result string :=
  match List.filter (λ operation, isinstance expression (cls operation))
          _operation_list with
  | [] => Raise IndexError
  | operation :: _ =>
      let converted_args : result (list string) :=
        match expression with
        | Not a => c <~ _convert_r a (precedence operation) ;; Ok [c]
        | And l | Or l =>
            mapM_result (λ subexp, _convert_r subexp (precedence operation)) l
        | _ => Ok []
        end in
      if String.eqb (name operation) "or" || String.eqb (name operation) "and"
      then
        converted <~ converted_args ;;
        let subexp := String.concat (sub operation) converted in
        if (precedence operation <? last_operator_precednce)%nat
        then Ok ("(" +:+ subexp +:+ ")")
        else Ok subexp
      else if String.eqb (name operation) "not" then
        let sym := symbols expression in
        if (size sym =? 1)%nat then Ok (pop sym +:+ "='0'")
        else
          converted <~ converted_args ;;
          match converted with
          | converted_subexp :: _ =>
              Ok (sub operation +:+ "(" +:+ converted_subexp +:+ ")")
          | [] => Raise IndexError
          end
      else if String.eqb (name operation) "variable" then
        Ok (str expression +:+ "='1'")
      else if String.eqb (name operation) "literal" then
        Ok (lower (pretty expression))
      else Raise ConditionConversionError
  end.

(** [AbstractCondition._vhdl] (and the [vhdl] property). *)
Definition _vhdl (expression : Expression) : result string :=
  _convert_r expression 0.

(** [Condition(text).vhdl]. *)
Definition vhdl_of_text (text : string) : result string :=
  expression <~ parse_expression text ;; _vhdl expression.

(** *** Condition objects

    The store holds the [_expression] of each Condition object. *)

(** [Condition.__init__] (the implementation of the test suite): a new
    object holding the parsed expression. *)
Definition __init__ (σ : gmap ref Expression) (expression : string)
  : result (ref * gmap ref Expression) :=
  e <~ parse_expression expression ;;
  let self := fresh (dom σ) in
  Ok (self, <[self := e]> σ).

(** Neither [AbstractCondition] nor [Condition] defines [__eq__]: the
    comparison is [object.__eq__], the identity of the operands. *)
Definition __eq__ (self other : ref) : bool := bool_decide (self = other).

End Condition.

(** ** Type-filtered collections ([utils.filtered_collections]) *)
Module FilteredCollections.

(** The abstract base classes elements are filtered by. *)
Inductive py_class : Type :=
  | AbstractState | AbstractTransition | AbstractCondition.

Global Instance py_class_eq_dec : EqDecision py_class.
Proof. solve_decision. Defined.

(** Python values a caller can pass: an object of one of the classes,
    with its identity, or a value of a built-in type. Lists are not
    hashable. *)
Inductive value : Type :=
  | Obj (c : py_class) (r : ref)
  | VInt (z : Z)
  | VStr (s : string)
  | VNone
  | VList (l : list Z).

Global Instance value_eq_dec : EqDecision value.
Proof. solve_decision. Defined.

Definition class_code (c : py_class) : nat :=
  match c with AbstractState => 0 | AbstractTransition => 1 | AbstractCondition => 2 end.
Definition class_decode (n : nat) : py_class :=
  match n with 0 => AbstractState | 1 => AbstractTransition | _ => AbstractCondition end.

Definition value_encode (v : value) : nat * nat + Z + string + unit + list Z :=
  match v with
  | Obj c r => inl (inl (inl (inl (class_code c, r))))
  | VInt z => inl (inl (inl (inr z)))
  | VStr s => inl (inl (inr s))
  | VNone => inl (inr ())
  | VList l => inr l
  end.
Definition value_decode (x : nat * nat + Z + string + unit + list Z) : value :=
  match x with
  | inl (inl (inl (inl (c, r)))) => Obj (class_decode c) r
  | inl (inl (inl (inr z))) => VInt z
  | inl (inl (inr s)) => VStr s
  | inl (inr _) => VNone
  | inr l => VList l
  end.

Global Instance value_countable : Countable value.
Proof.
  apply (inj_countable' value_encode value_decode).
  intros [[] r| | | |]; reflexivity.
Defined.

Definition isinstance (v : value) (element_type : py_class) : bool :=
  match v with
  | Obj c _ => bool_decide (c = element_type)
  | _ => false
  end.

Definition hashable (v : value) : bool :=
  match v with
  | VList _ => false
  | _ => true
  end.

(** [MonotonicSet(element_type)]: the class [Cls] and its filter. *)
Section MonotonicSet.
Variable element_type : py_class.

(** [Cls._value_filter]. *)
Definition _value_filter (v : value) : result value :=
  if negb (isinstance v element_type) then Raise TypeError else Ok v.

(** [FilteredSet.__init__]: the set of the filtered elements. *)
Definition FilteredSet (elements : list value) : result (gset value) :=
  vs <~ mapM_result _value_filter elements ;; Ok (list_to_set vs).

(** [FilteredSet.add]; the result is [self.__elements] after the call.
    The built-in [set.add] needs a hashable element, which every
    filtered value is. *)
Definition add (__elements : gset value) (v : value) : result (gset value) :=
  v' <~ _value_filter v ;; Ok ({[ v' ]} ∪ __elements).

(** [FilteredSet.discard]: the element is not filtered. The built-in
    [set.discard] raises TypeError on a list; of the unhashable values
    only lists are among the values here (a set argument, which the
    built-in looks up as a frozenset, is not). *)
Definition discard (__elements : gset value) (v : value) : result (gset value) :=
  if hashable v then Ok (__elements ∖ {[ v ]}) else Raise TypeError.
End MonotonicSet.

End FilteredCollections.

(** ** States ([finitestatemachine.state]) *)
Module State.
Import FilteredCollections.

(** A State object: its name and its outputs (output name to 0/1). *)
Record State : Type := {
  name : string;
  outputs : gmap string Z;
}.

Global Instance State_inhabited : Inhabited State :=
  populate {| name := ""; outputs := ∅ |}.

(** [AbstractState.output_identifiers]: the keys of the outputs. *)
Definition output_identifiers (st : State) : gset string := dom (outputs st).

(** [collections.Counter]: element to count; a missing element counts 0. *)
Abbreviation Counter := (gmap string nat).

Definition count (c : Counter) (k : string) : nat := default 0 (c !! k).

(** [Counter.__add__]: counts are added and only positive ones kept. *)
Definition Counter_add (x y : Counter) : Counter :=
  filter (λ kv, 0 < kv.2) (union_with (λ a b, Some (a + b)) x y).

(** [Counter(iterable)] of distinct keys: each counts once. *)
Definition Counter_of_keys (ks : gset string) : Counter := gset_to_gmap 1 ks.

(** The values of a StateSet as a type-filtered set. *)
Definition StateSet_values (s : gset ref) : gset value :=
  set_map (Obj AbstractState) s.

Section Heap.
(** The State objects, by identity. *)
Variable states : gmap ref State.

(** [StateSet.__getitem__]. *)
Definition __getitem__ (self : gset ref) (state_name : string) : gset ref :=
  filter (λ state, state_name = name (states !!! state)) self.

(** [StateSet._name_identifiers]. *)
Definition _name_identifiers (self : gset ref) : Counter :=
  foldl Counter_add ∅
    ((λ state, {[ name (states !!! state) := 1 ]}) <$> elements self).

(** [StateSet._output_identifiers]. *)
Definition _output_identifiers (self : gset ref) : Counter :=
  foldl Counter_add ∅
    ((λ state, Counter_of_keys (output_identifiers (states !!! state)))
       <$> elements self).

(** [StateSet.is_valid]. *)
Definition is_valid (self : gset ref) : bool :=
  let outputs := _output_identifiers self in
  match List.filter (λ val, negb (count outputs val =? size outputs))
          (map fst (map_to_list outputs)) with
  | _ :: _ => false
  | [] =>
      if negb (size self =? size (_name_identifiers self)) then false
      else true
  end.
End Heap.

(** *** StateSet objects in a store

    [__delitem__] is a statement, not a query: what it does shows in the
    store of StateSet objects (identity to [__elements]). *)

(** A new StateSet object. *)
Definition alloc (σ : gmap ref (gset ref)) (elements : gset ref)
  : ref * gmap ref (gset ref) :=
  let l := fresh (dom σ) in (l, <[l := elements]> σ).

(** [self[state_name]] and [a - b] on objects: each builds a new StateSet. *)
Definition getitem_obj (states : gmap ref State) (σ : gmap ref (gset ref))
  (self : ref) (state_name : string) : ref * gmap ref (gset ref) :=
  alloc σ (__getitem__ states (σ !!! self) state_name).

Definition sub_obj (σ : gmap ref (gset ref)) (a b : ref)
  : ref * gmap ref (gset ref) :=
  alloc σ ((σ !!! a) ∖ (σ !!! b)).

(** [StateSet.__delitem__]: [self = cast(..., self - self[state_name])]
    binds the local name [self] to the new object and returns; the
    store after the call is the result. *)
Definition __delitem__ (states : gmap ref State) (σ : gmap ref (gset ref))
  (self : ref) (state_name : string) : gmap ref (gset ref) :=
  let '(named, σ1) := getitem_obj states σ self state_name in
  let '(difference, σ2) := sub_obj σ1 self named in
  let self := difference in
  σ2.

End State.

(** ** Transitions ([finitestatemachine.transition]) *)
Module Transition.

(** A Transition object: references to its source and destination States
    and to its Condition. *)
Record Transition : Type := {
  source : ref;
  destination : ref;
  condition : ref;
}.

Global Instance Transition_inhabited : Inhabited Transition :=
  populate {| source := 0; destination := 0; condition := 0 |}.

(** The objects of a machine, by identity: Transitions, and the
    expression of each Condition. *)
Record Heap : Type := {
  transitions : gmap ref Transition;
  conditions : gmap ref Expression;
}.

Section Heap.
Variable h : Heap.

Definition source_of (transition : ref) : ref :=
  source (transitions h !!! transition).
Definition destination_of (transition : ref) : ref :=
  destination (transitions h !!! transition).
(** [transition.condition.expression]. *)
Definition expression_of (transition : ref) : Expression :=
  conditions h !!! condition (transitions h !!! transition).

(** [TransitionSet.sources] and [TransitionSet.destinations]. *)
Definition sources (self : gset ref) : gset ref :=
  list_to_set (source_of <$> elements self).
Definition destinations (self : gset ref) : gset ref :=
  list_to_set (destination_of <$> elements self).

(** [state and transition.<end> == state]: an omitted filter ([None])
    is false; State objects are true and compare by identity. *)
Definition matches (state : option ref) (endpoint : ref) : bool :=
  match state with
  | Some s => bool_decide (endpoint = s)
  | None => false
  end.

(** One round of the loop of [from_states]. *)
Definition from_states_step (source destination : option ref)
  (acc : gset ref * gset ref) (transition : ref) : gset ref * gset ref :=
  let '(source_transitions, destination_transitions) := acc in
  let source_transitions :=
    if matches source (source_of transition)
    then {[ transition ]} ∪ source_transitions else source_transitions in
  let destination_transitions :=
    if matches destination (destination_of transition)
    then {[ transition ]} ∪ destination_transitions
    else destination_transitions in
  (source_transitions, destination_transitions).

(** [TransitionSet.from_states]. *)
Definition from_states (self : gset ref) (source destination : option ref)
  (mode : string) : result (gset ref) :=
  let '(source_transitions, destination_transitions) :=
    foldl (from_states_step source destination) (∅, ∅) (elements self) in
  if String.eqb mode "and" && bool_decide (is_Some source)
     && bool_decide (is_Some destination)
  then Ok (source_transitions ∩ destination_transitions)
  else if String.eqb mode "or" || negb (bool_decide (is_Some source))
          || negb (bool_decide (is_Some destination))
  then Ok (source_transitions ∪ destination_transitions)
  else Raise ValueError.

(** The generator of [TransitionSet.evaluate]: the transitions, in the
    order of iteration, whose evaluated condition is true. *)
Fixpoint evaluate_gen (l : list ref) (arguments : list (string * bool))
  : result (list ref) :=
  match l with
  | [] => Ok []
  | transition :: l' =>
      e <~ Condition.evaluate (expression_of transition) arguments ;;
      b <~ Expression_bool e ;;
      rest <~ evaluate_gen l' arguments ;;
      Ok (if b then transition :: rest else rest)
  end.

(** [TransitionSet.evaluate]. *)
Definition evaluate (self : gset ref) (arguments : list (string * bool))
  : result (gset ref) :=
  l <~ evaluate_gen (elements self) arguments ;; Ok (list_to_set l).

(** [TransitionSet.check_reachability]; a set is true when its length
    is not zero. *)
Definition check_reachability (self : gset ref) : result bool :=
  let unreachable_states := sources self ∖ destinations self in
  let unexitable_states := destinations self ∖ sources self in
  if negb (size unreachable_states =? 0) then Raise UnreachableState
  else if negb (size unexitable_states =? 0) then Raise UnexitableState
  else Ok true.
End Heap.

End Transition.

(** ** The statements of the specification

    The properties as the specification words them, next to the code. *)
Module Spec.
Import FilteredCollections State Transition.

(** A transition touches a state when the state is one of its ends. *)
Definition touches (h : Heap) (s : ref) (t : ref) : Prop :=
  source_of h t = s ∨ destination_of h t = s.

(** [from_states(source=s)] returns the transitions touching [s]. *)
Definition from_states_touching (h : Heap) (ts : gset ref) (s : ref) : Prop :=
  ∃ r, from_states h ts (Some s) None "and" = Ok r
       ∧ ∀ t, t ∈ r ↔ t ∈ ts ∧ touches h s t.

(** The call fails with a ValueError-class failure. *)
Definition fails_with_ValueError {A} (r : result A) : Prop :=
  ∃ e, r = Raise e ∧ ValueError_class e = true.

(** The number of members of [s] that carry the output [o]. *)
Definition members_with_output (states : gmap ref State) (s : gset ref)
  (o : string) : nat :=
  size (filter (λ r, o ∈ output_identifiers (states !!! r)) s).

(** A Counter that holds positive counts only. *)
Definition positive (c : Counter) : Prop := ∀ k n, c !! k = Some n → 0 < n.

(** The distinct output names of the members of [s]. *)
Definition output_names (states : gmap ref State) (s : gset ref)
  : gset string :=
  ⋃ ((λ r, output_identifiers (states !!! r)) <$> elements s).

(** (a) no two members share a name. *)
Definition unique_names (states : gmap ref State) (s : gset ref) : Prop :=
  ∀ a b, a ∈ s → b ∈ s → name (states !!! a) = name (states !!! b) → a = b.

(** (b) every output name that appears appears on the same number of
    members as every other. *)
Definition uniform_outputs (states : gmap ref State) (s : gset ref) : Prop :=
  ∀ o1 o2, 0 < members_with_output states s o1 →
           0 < members_with_output states s o2 →
           members_with_output states s o1 = members_with_output states s o2.

Definition valid (states : gmap ref State) (s : gset ref) : Prop :=
  unique_names states s ∧ uniform_outputs states s.

(** [evaluate] returns the transitions whose substituted condition is
    the TRUE literal, and excludes every other one. *)
Definition evaluate_selects_true (h : Heap) (ts : gset ref)
  (arguments : list (string * bool)) : Prop :=
  ∃ r, evaluate h ts arguments = Ok r
       ∧ ∀ t, t ∈ r ↔ t ∈ ts
              ∧ Condition.evaluate (expression_of h t) arguments = Ok TRUE.

(** The lowering of [Not operand]: ["n='0'"] for a single variable [n],
    ["not (" + lowered operand + ")"] otherwise. *)
Definition Not_lowering (operand : Expression) : Prop :=
  match operand with
  | Var n => Condition._vhdl (Not operand) = Ok (n +:+ "='0'")
  | _ => ∃ lowered, Condition._convert_r operand 3 = Ok lowered
           ∧ Condition._vhdl (Not operand) = Ok ("not (" +:+ lowered +:+ ")")
  end.

Definition parenthesize (b : bool) (s : string) : string :=
  if b then "(" +:+ s +:+ ")" else s.

(** The precedence of an expression: that of its entry in
    [_operation_list] (variable and literal 0, or 1, and 2, not 3). *)
Definition table_precedence (e : Expression) : nat :=
  match List.filter (λ operation, Boolean.isinstance e (Condition.cls operation))
          Condition._operation_list with
  | operation :: _ => Condition.precedence operation
  | [] => 0
  end.

(** The rule of the parentheses as it is worded: an expression lowered
    in a context that demands the precedence [p] is its lowering between
    parentheses iff its precedence is strictly lower than [p]. *)
Definition parenthesized_iff_lower (e : Expression) (p : nat) : Prop :=
  ∃ body, Condition._convert_r e 0 = Ok body
          ∧ Condition._convert_r e p
            = Ok (parenthesize (table_precedence e <? p) body).

(** A state that is the source of a transition and the destination of
    none, and the converse. *)
Definition is_source (h : Heap) (ts : gset ref) (s : ref) : Prop :=
  ∃ t, t ∈ ts ∧ source_of h t = s.
Definition is_destination (h : Heap) (ts : gset ref) (s : ref) : Prop :=
  ∃ t, t ∈ ts ∧ destination_of h t = s.
Definition only_source (h : Heap) (ts : gset ref) : Prop :=
  ∃ s, is_source h ts s ∧ ¬ is_destination h ts s.
Definition only_destination (h : Heap) (ts : gset ref) : Prop :=
  ∃ s, is_destination h ts s ∧ ¬ is_source h ts s.

(** Two Conditions are equal iff their expressions are structurally
    equal. *)
Definition equal_iff_same_expression (σ : gmap ref Expression) (a b : ref)
  : Prop :=
  Condition.__eq__ a b = true ↔ σ !! a = σ !! b.

(** [add] and [discard] of a StateSet both reject the value. *)
Definition rejected_by_add_and_discard (s : gset ref) (v : value) : Prop :=
  add AbstractState (StateSet_values s) v = Raise TypeError
  ∧ discard (StateSet_values s) v = Raise TypeError.

End Spec.

(** ** The objects of the test suite *)
Module Tests.
Import State Transition.

Definition expression (text : string) : Expression :=
  match parse text with
  | Ok e => e
  | Raise _ => FALSE
  end.

Definition state (n : string) (outs : list (string * Z)) : State :=
  {| name := n; outputs := list_to_map outs |}.

(** [test_get_transitions]: states 0, 1, 2 and transitions
    1: 0 -> 1, 2: 0 -> 2, 3: 2 -> 0, 4: 2 -> 2. *)
Definition get_transitions : Heap := {|
  transitions := {[ 1 := {| source := 0; destination := 1; condition := 1 |};
                    2 := {| source := 0; destination := 2; condition := 2 |};
                    3 := {| source := 2; destination := 0; condition := 3 |};
                    4 := {| source := 2; destination := 2; condition := 4 |} ]};
  conditions := {[ 1 := expression "x | ~y"; 2 := expression "~x & y";
                   3 := expression "~x & y"; 4 := expression "x | ~y" ]};
  |}.

(** The two states of the end-to-end example: [s0] and [s1], one
    output [u] each. *)
Definition two_states : gmap ref State :=
  {[ 0 := state "s0" [("u", 0%Z)]; 1 := state "s1" [("u", 1%Z)] ]}.

End Tests.

(** ** Further methods of the collections and their users *)

(** *** [FilteredSet]: membership, length and the type invariant *)
Module FilteredSetMethods.
Import FilteredCollections.

(** [FilteredSet.__contains__]: the built-in [in] on the set of elements,
    which raises TypeError on an unhashable value. *)
Definition __contains__ (__elements : gset value) (element : value)
  : result bool :=
  if hashable element then Ok (bool_decide (element ∈ __elements))
  else Raise TypeError.

(** [FilteredSet.__len__]. *)
Definition __len__ (__elements : gset value) : nat := size __elements.

(** Every element is an instance of the element type. *)
Definition all_instances (element_type : py_class) (__elements : gset value)
  : Prop :=
  ∀ v, v ∈ __elements → isinstance v element_type = true.

(** The States of a set of values, by identity. *)
Definition StateSet_refs (s : gset value) : gset ref :=
  set_omap (λ v, match v with
                 | Obj AbstractState r => Some r
                 | _ => None
                 end) s.

(** The values of a TransitionSet as a type-filtered set, and back. *)
Definition TransitionSet_values (s : gset ref) : gset value :=
  set_map (Obj AbstractTransition) s.
Definition TransitionSet_refs (s : gset value) : gset ref :=
  set_omap (λ v, match v with
                 | Obj AbstractTransition r => Some r
                 | _ => None
                 end) s.

End FilteredSetMethods.

(** *** [FilteredDict] and [OutputsDict] *)
Module FilteredDict.

(** A [FilteredDict] subclass gives the two filters; the value filter may
    refuse. [__items] is the dictionary the object holds. *)
Section FilteredDict.
Context `{Countable K} {RawK RawV V : Type}.
Variable name_filter : RawK → K.
Variable value_filter : RawV → result V.

(** [FilteredDict.__init__]: the dictionary of the filtered keyword
    arguments; a later argument replaces an earlier one of the same
    filtered name. *)
Fixpoint __init__ (kwargs : list (RawK * RawV)) (__items : gmap K V)
  : result (gmap K V) :=
  match kwargs with
  | [] => Ok __items
  | (k, v) :: rest =>
      v' <~ value_filter v ;;
      __init__ rest (<[name_filter k := v']> __items)
  end.

(** [FilteredDict.__getitem__]; [None] is the KeyError of the dictionary. *)
Definition __getitem__ (__items : gmap K V) (key : RawK) : option V :=
  __items !! name_filter key.

(** [FilteredDict.__setitem__]; the result is the dictionary after the
    assignment. *)
Definition __setitem__ (__items : gmap K V) (key : RawK) (value : RawV)
  : result (gmap K V) :=
  v <~ value_filter value ;; Ok (<[name_filter key := v]> __items).

(** [FilteredDict.__delitem__]; [None] is the KeyError of the dictionary. *)
Definition __delitem__ (__items : gmap K V) (key : RawK)
  : option (gmap K V) :=
  match __items !! name_filter key with
  | Some _ => Some (delete (name_filter key) __items)
  | None => None
  end.

(** [FilteredDict.__len__] and [FilteredDict.__contains__]. *)
Definition __len__ (__items : gmap K V) : nat := size __items.
Definition __contains__ (__items : gmap K V) (key : RawK) : bool :=
  bool_decide (is_Some (__items !! name_filter key)).
End FilteredDict.

(** The values a caller assigns to an output: integers, strings,
    booleans and None. *)
Inductive raw : Type :=
  | RInt (z : Z)
  | RStr (s : string)
  | RBool (b : bool)
  | RNone.

(** [value in (0, '0', False, 1, '1', True)]: the comparison is [==], so
    an integer matches 0, False, 1 or True by its value, a boolean
    always matches, a string matches ['0'] or ['1']. *)
Definition supported (value : raw) : bool :=
  match value with
  | RInt z => bool_decide (z = 0%Z) || bool_decide (z = 1%Z)
  | RStr s => String.eqb s "0" || String.eqb s "1"
  | RBool _ => true
  | RNone => false
  end.

(** [int(value)] of a supported value. *)
Definition int (value : raw) : Z :=
  match value with
  | RInt z => z
  | RStr s => if String.eqb s "1" then 1%Z else 0%Z
  | RBool b => if b then 1%Z else 0%Z
  | RNone => 0%Z
  end.

(** [OutputsDict.name_filter] and [OutputsDict.value_filter]. *)
Definition name_filter (name : string) : string := name.
Definition value_filter (value : raw) : result Z :=
  if negb (supported value) then Raise ValueError else Ok (int value).

(** [OutputsDict] of keyword arguments, as the [outputs] setter of a State
    builds it. *)
Definition OutputsDict (kwargs : list (string * raw)) : result (gmap string Z) :=
  __init__ name_filter value_filter kwargs ∅.

(** An output value is 0 or 1. *)
Definition bit (z : Z) : Prop := z = 0%Z ∨ z = 1%Z.

End FilteredDict.

(** *** [StateSet]: the counters as properties *)
Module StateSetProperties.
Import State.

(** [StateSet.names] and [StateSet.outputs]. *)
Definition names (states : gmap ref State) (self : gset ref) : Counter :=
  _name_identifiers states self.
Definition outputs (states : gmap ref State) (self : gset ref) : Counter :=
  _output_identifiers states self.

End StateSetProperties.

(** *** Transitions and condition sets *)
Module TransitionMethods.
Import Transition.

(** [AbstractTransition.parallels]. *)
Definition parallels (h : Heap) (self other : ref) : bool :=
  let sources_match := bool_decide (source_of h self = source_of h other) in
  let destinations_match :=
    bool_decide (destination_of h self = destination_of h other) in
  sources_match && destinations_match.

(** [TransitionSet.conditions]: the set of the Condition objects. *)
Definition conditions (h : Heap) (self : gset ref) : gset ref :=
  list_to_set ((λ transition, condition (transitions h !!! transition))
                 <$> elements self).

(** [ConditionSet.expressions], in the order of iteration. *)
Definition expressions (h : Heap) (self : gset ref) : list Expression :=
  (λ condition, Transition.conditions h !!! condition) <$> elements self.

(** [ConditionSet.inputs]. *)
Definition ConditionSet_inputs (h : Heap) (self : gset ref) : gset string :=
  ⋃ ((λ condition, Condition.inputs (Transition.conditions h !!! condition))
       <$> elements self).

(** [itertools.combinations(iterable, 2)]. *)
Fixpoint combinations2 {A} (l : list A) : list (A * A) :=
  match l with
  | [] => []
  | a :: l' => map (pair a) l' ++ combinations2 l'
  end.

Section NormalForm.
(** [self._algebra.dnf(e).simplify()] of the [boolean] package, which is
    not among the sources: a parameter. *)
Variable dnf_simplify : Expression → Expression.

(** The loop of [ConditionSet.exclusive]. *)
Fixpoint exclusive_loop (pairs : list (Expression * Expression)) : bool :=
  match pairs with
  | [] => true
  | (exp1, exp2) :: rest =>
      let logical_exclusion := dnf_simplify (And [exp1; exp2]) in
      if negb (is_lit false logical_exclusion) then false
      else exclusive_loop rest
  end.

(** [ConditionSet.exclusive]. *)
Definition exclusive (h : Heap) (self : gset ref) : bool :=
  exclusive_loop (combinations2 (expressions h self)).

(** [TransitionSet.is_exclusive]. *)
Definition is_exclusive (h : Heap) (self : gset ref) : bool :=
  exclusive h (conditions h self).
End NormalForm.

End TransitionMethods.

(** *** The machine ([finitestatemachine.moore_finite_state_machine]) *)
Module MooreFiniteStateMachine.
Import FilteredCollections FilteredSetMethods State Transition.

(** A machine: its StateSet, its TransitionSet and its default state.
    [default_flag] holds the [_default] attribute of the State objects
    that have one. *)
Record Machine : Type := {
  _states : gset ref;
  _transitions : gset ref;
  _default : option value;
  default_flag : gmap ref bool;
}.

(** The identity of an object. *)
Definition ref_of (v : value) : ref :=
  match v with
  | Obj _ r => r
  | _ => 0
  end.

(** [MooreFiniteStateMachine.add_state]. *)
Definition add_state (m : Machine) (state : value) (default : bool)
  : result Machine :=
  elements <~ add AbstractState (StateSet_values (_states m)) state ;;
  let m := {| _states := StateSet_refs elements;
              _transitions := _transitions m;
              _default := _default m;
              default_flag := default_flag m |} in
  if default then
    Ok {| _states := _states m;
          _transitions := _transitions m;
          _default := Some state;
          default_flag := <[ref_of state := true]> (default_flag m) |}
  else Ok m.

(** [MooreFiniteStateMachine.add_transition]. *)
Definition add_transition (m : Machine) (transition : value) : result Machine :=
  elements <~ add AbstractTransition (TransitionSet_values (_transitions m))
                transition ;;
  Ok {| _states := _states m;
        _transitions := TransitionSet_refs elements;
        _default := _default m;
        default_flag := default_flag m |}.

(** [MooreFiniteStateMachine.get_state]. *)
Definition get_state (states : gmap ref State) (m : Machine) (name : string)
  : gset ref :=
  __getitem__ states (_states m) name.

(** [MooreFiniteStateMachine.default_state]. *)
Definition default_state (m : Machine) : option value := _default m.

(** [MooreFiniteStateMachine.inputs] and [MooreFiniteStateMachine.outputs]. *)
Definition inputs (h : Heap) (m : Machine) : gset string :=
  TransitionMethods.ConditionSet_inputs h
    (TransitionMethods.conditions h (_transitions m)).
Definition outputs (states : gmap ref State) (m : Machine) : Counter :=
  StateSetProperties.outputs states (_states m).

End MooreFiniteStateMachine.

(** *** VHDL identifiers ([finitestatemachine.hdl]) *)
Module Hdl.

(** [str.isalnum] on ASCII text: not empty, letters and digits only. *)
Fixpoint all_alnum (s : string) : bool :=
  match s with
  | EmptyString => true
  | String c s' => (is_letter c || is_digit c) && all_alnum s'
  end.
Definition isalnum (s : string) : bool :=
  match s with
  | EmptyString => false
  | _ => all_alnum s
  end.

(** [str.replace] of every underscore by nothing. *)
Fixpoint remove_underscores (s : string) : string :=
  match s with
  | EmptyString => EmptyString
  | String c s' =>
      if Ascii.eqb c "_" then remove_underscores s'
      else String c (remove_underscores s')
  end.

(** [VHDLIdentifier.check]; indexing the empty string raises IndexError. *)
Definition check (iterable : string) : result bool :=
  match iterable with
  | EmptyString => Raise IndexError
  | String c _ => Ok (is_letter c && isalnum (remove_underscores iterable))
  end.

(** [VHDLIdentifier.__init__]: the identifier, when it is one. *)
Definition VHDLIdentifier (iterable : string) : result string :=
  ok <~ check iterable ;;
  if negb ok then Raise ValueError else Ok iterable.

(** The text is ASCII. *)
Fixpoint ascii_text (s : string) : Prop :=
  match s with
  | EmptyString => True
  | String c s' => nat_of_ascii c < 128 ∧ ascii_text s'
  end.

(** The identifiers: a letter, then letters, digits and underscores. *)
Fixpoint identifier_tail (s : string) : bool :=
  match s with
  | EmptyString => true
  | String c s' =>
      (is_letter c || is_digit c || Ascii.eqb c "_") && identifier_tail s'
  end.
Definition identifier (s : string) : bool :=
  match s with
  | EmptyString => false
  | String c s' => is_letter c && identifier_tail s'
  end.

End Hdl.

(** *** The meaning of expressions *)
Module Semantics.

(** The value of an expression when the variables have the values [ρ]. *)
Fixpoint truth (ρ : string → bool) (e : Expression) : bool :=
  match e with
  | Literal b => b
  | Var n => ρ n
  | Not a => negb (truth ρ a)
  | And l => forallb (truth ρ) l
  | Or l => existsb (truth ρ) l
  end.

(** The value the keyword arguments give to a name (false when absent). *)
Definition binding (arguments : list (string * bool)) (n : string) : bool :=
  default false ((list_to_map arguments : gmap string bool) !! n).

(** The names the keyword arguments bind. *)
Definition bound (arguments : list (string * bool)) : gset string :=
  list_to_set (arguments.*1).

End Semantics.

(** *** The machine of the test fixtures *)
Module Fixtures.
Import State Transition.

(** [complete_fsm] of [conftest.py]: states 0 ([s0]) and 1 ([s1]) with the
    outputs [u] and [v]; transitions 10: s0 -> s0 on [x], 11: s0 -> s1 on
    [~x], 12: s1 -> s0 on [x&~y], 13: s1 -> s1 on [~x|y]. *)
Definition complete_fsm_states : gmap ref State :=
  {[ 0 := Tests.state "s0" [("u", 0%Z); ("v", 0%Z)];
     1 := Tests.state "s1" [("u", 1%Z); ("v", 0%Z)] ]}.

Definition complete_fsm : Heap := {|
  transitions := {[ 10 := {| source := 0; destination := 0; condition := 20 |};
                    11 := {| source := 0; destination := 1; condition := 21 |};
                    12 := {| source := 1; destination := 0; condition := 22 |};
                    13 := {| source := 1; destination := 1; condition := 23 |} ]};
  conditions := {[ 20 := Tests.expression "x"; 21 := Tests.expression "~x";
                   22 := Tests.expression "x&~y";
                   23 := Tests.expression "~x|y" ]};
|}.

End Fixtures.

(** * Properties *)

Section ExpressionInduction.
Variable P : Expression → Prop.
Hypothesis HLiteral : ∀ b, P (Literal b).
Hypothesis HVar : ∀ n, P (Var n).
Hypothesis HNot : ∀ e, P e → P (Not e).
Hypothesis HAnd : ∀ l, Forall P l → P (And l).
Hypothesis HOr : ∀ l, Forall P l → P (Or l).

Lemma Expression_nested_ind : ∀ e, P e.
Proof.
  fix IH 1. intros [b|n|e|l|l].
  - apply HLiteral.
  - apply HVar.
  - apply HNot, IH.
  - apply HAnd. induction l as [|a l IHl]; constructor; [apply IH | apply IHl].
  - apply HOr. induction l as [|a l IHl]; constructor; [apply IH | apply IHl].
Qed.
End ExpressionInduction.

Lemma mapM_result_total {A B} (f : A → result B) (l : list A) :
  Forall (λ a, ∃ b, f a = Ok b) l → ∃ bs, mapM_result f l = Ok bs.
Proof.
  induction 1 as [|a l [b Hb] _ [bs Hbs]]; simpl.
  - by eexists.
  - rewrite Hb; simpl. rewrite Hbs; simpl. by eexists.
Qed.

Import Condition Spec.

Lemma convert_And l p :
  _convert_r (And l) p =
  (converted <~ mapM_result (λ subexp, _convert_r subexp 2) l ;;
   Ok (parenthesize (2 <? p) (String.concat " and " converted))).
Proof.
  simpl. destruct (mapM_result _ l); simpl; [|done]. by destruct (2 <? p).
Qed.

Lemma convert_Or l p :
  _convert_r (Or l) p =
  (converted <~ mapM_result (λ subexp, _convert_r subexp 1) l ;;
   Ok (parenthesize (1 <? p) (String.concat " or " converted))).
Proof.
  simpl. destruct (mapM_result _ l); simpl; [|done]. by destruct (1 <? p).
Qed.

Lemma convert_Not a p :
  _convert_r (Not a) p =
  if size (symbols a) =? 1 then Ok (pop (symbols a) +:+ "='0'")
  else (converted_subexp <~ _convert_r a 3 ;;
        Ok ("not (" +:+ converted_subexp +:+ ")")).
Proof.
  simpl. destruct (size (symbols a) =? 1); [done|].
  by destruct (_convert_r a 3).
Qed.

Lemma convert_Var n p : _convert_r (Var n) p = Ok (n +:+ "='1'").
Proof. reflexivity. Qed.

Lemma convert_Literal b p :
  _convert_r (Literal b) p = Ok (if b then "true" else "false").
Proof. by destruct b. Qed.

Lemma convert_total e : ∀ p, ∃ s, _convert_r e p = Ok s.
Proof.
  induction e as [b|n|e IH|l IH|l IH] using Expression_nested_ind; intros p.
  - rewrite convert_Literal. by eexists.
  - rewrite convert_Var. by eexists.
  - rewrite convert_Not. destruct (size (symbols e) =? 1); [by eexists|].
    destruct (IH 3) as [s ->]. by eexists.
  - rewrite convert_And.
    destruct (mapM_result_total (λ subexp, _convert_r subexp 2) l) as [bs ->].
    { eapply Forall_impl; [exact IH|]. intros a Ha. apply Ha. }
    by eexists.
  - rewrite convert_Or.
    destruct (mapM_result_total (λ subexp, _convert_r subexp 1) l) as [bs ->].
    { eapply Forall_impl; [exact IH|]. intros a Ha. apply Ha. }
    by eexists.
Qed.

Lemma mapM_result_Forall2 {A B} (f : A → result B) (l : list A) :
  ∀ bs, mapM_result f l = Ok bs → Forall2 (λ a b, f a = Ok b) l bs.
Proof.
  induction l as [|a l IH]; cbn; intros bs.
  - intros [= <-]. constructor.
  - destruct (f a) as [b|] eqn:Hb; [|done]. cbn.
    destruct (mapM_result f l) as [bs'|]; [|done]. cbn.
    intros [= <-]. constructor; [done | by apply IH].
Qed.

(** The operands of a conjunction or disjunction are lowered in the
    context of its own precedence, whatever the context of the node. *)
Lemma convert_operands l prec :
  ∃ texts, mapM_result (λ subexp, _convert_r subexp prec) l = Ok texts
           ∧ Forall2 (λ operand text, _convert_r operand prec = Ok text)
               l texts.
Proof.
  destruct (mapM_result_total (λ subexp, _convert_r subexp prec) l)
    as [texts Htexts].
  { apply Forall_forall. intros a _. apply convert_total. }
  exists texts. split; [done|].
  by apply (mapM_result_Forall2 (λ subexp, _convert_r subexp prec)).
Qed.

(** C5, as stated, fails on the variable [x] of [x&(y|~z)]: its
    precedence in the table is 0, strictly lower than the 2 the
    conjunction demands, and it is lowered to [x='1'] without
    parentheses. *)
Lemma atom_parentheses_counterexample :
  ¬ parenthesized_iff_lower (Var "x") 2.
Proof.
  intros [body [Hbody Hp]]. vm_compute in Hbody, Hp.
  injection Hbody as <-. discriminate Hp.
Qed.

(** C5 (amended): the text [x&(y|~z)] lowers to
    [x='1' and (y='1' or z='0')] and [x|(y&z)] to
    [x='1' or y='1' and z='1']. In general a conjunction (precedence 2)
    or disjunction (precedence 1) lowered in a context that demands the
    precedence [p] is the texts of its operands, each lowered in the
    context of the node's own precedence, joined by [" and "] or
    [" or "], and this text is between parentheses iff the node's
    precedence is strictly lower than [p]. Variables, literals and
    negations are never put between parentheses, whatever the context; a
    negated variable [n] is [n='0'], and a negation whose operand
    mentions no symbol or several is ["not ("], its operand lowered in
    the context of precedence 3, and [")"]. *)
Theorem lowering_rule (l : list Expression) (a : Expression) (n : string)
    (b : bool) (p : nat) :
  vhdl_of_text "x&(y|~z)" = Ok "x='1' and (y='1' or z='0')"
  ∧ vhdl_of_text "x|(y&z)" = Ok "x='1' or y='1' and z='1'"
  ∧ (∃ texts,
       Forall2 (λ operand text, _convert_r operand 2 = Ok text) l texts
       ∧ _convert_r (And l) p
         = Ok (parenthesize (2 <? p) (String.concat " and " texts)))
  ∧ (∃ texts,
       Forall2 (λ operand text, _convert_r operand 1 = Ok text) l texts
       ∧ _convert_r (Or l) p
         = Ok (parenthesize (1 <? p) (String.concat " or " texts)))
  ∧ _convert_r (Var n) p = Ok (n +:+ "='1'")
  ∧ _convert_r (Literal b) p = Ok (if b then "true" else "false")
  ∧ _convert_r (Not a) p = _convert_r (Not a) 0
  ∧ _convert_r (Not (Var n)) p = Ok (n +:+ "='0'")
  ∧ (size (symbols a) ≠ 1 →
     ∃ text, _convert_r a 3 = Ok text
             ∧ _convert_r (Not a) p = Ok ("not (" +:+ text +:+ ")")).
Proof.
  split; [reflexivity|]. split; [reflexivity|]. split; [|split].
  - destruct (convert_operands l 2) as [texts [Hm Hall]].
    exists texts. split; [done|]. by rewrite convert_And, Hm.
  - destruct (convert_operands l 1) as [texts [Hm Hall]].
    exists texts. split; [done|]. by rewrite convert_Or, Hm.
  - split; [apply convert_Var|]. split; [apply convert_Literal|].
    split; [by rewrite !convert_Not|]. split.
    + rewrite convert_Not. cbn [symbols]. rewrite size_singleton.
      cbn [Nat.eqb]. unfold pop. by rewrite elements_singleton.
    + intros Hsize. destruct (convert_total a 3) as [text Htext].
      exists text. split; [done|]. rewrite convert_Not.
      destruct (Nat.eqb_spec (size (symbols a)) 1); [done|].
      by rewrite Htext.
Qed.

Lemma Not_single_variable n p : _convert_r (Not (Var n)) p = Ok (n +:+ "='0'").
Proof.
  rewrite convert_Not. cbn [symbols]. rewrite size_singleton. cbn [Nat.eqb].
  unfold pop. by rewrite elements_singleton.
Qed.

Lemma Not_compound a p :
  size (symbols a) ≠ 1 →
  _convert_r (Not a) p =
  (lowered <~ _convert_r a 3 ;; Ok ("not (" +:+ lowered +:+ ")")).
Proof.
  intros Hsize. rewrite convert_Not.
  by destruct (Nat.eqb_spec (size (symbols a)) 1).
Qed.

(** C4 fails on [~~x]: the operand [~x] is compound and mentions one
    variable; the lowering is [x='0'], not [not (x='0')], because the
    special case tests the number of symbols of the negation instead of
    the shape of its operand. *)
Theorem Not_of_one_symbol_operand :
  vhdl_of_text "~~x" = Ok "x='0'"
  ∧ _vhdl (Not (Not (Var "x"))) = Ok "x='0'"
  ∧ ¬ Not_lowering (Not (Var "x")).
Proof.
  split; [reflexivity|]. split; [reflexivity|].
  intros [lowered [H1 H2]]. vm_compute in H1, H2. congruence.
Qed.

Import Transition.

Section FromStates.
Variable h : Heap.

Lemma from_states_loop source destination l : ∀ A B,
  foldl (from_states_step h source destination) (A, B) l
  = (A ∪ list_to_set (List.filter (λ t, matches source (source_of h t)) l),
     B ∪ list_to_set
           (List.filter (λ t, matches destination (destination_of h t)) l)).
Proof.
  induction l as [|t l IH]; intros A B; simpl.
  - f_equal; set_solver.
  - rewrite IH.
    destruct (matches source (source_of h t)),
      (matches destination (destination_of h t)); simpl; f_equal; set_solver.
Qed.

Lemma list_filter_elements (f : ref → bool) (s : gset ref) :
  list_to_set (List.filter f (elements s)) = filter (λ t, f t) s.
Proof.
  apply set_eq; intros t.
  rewrite elem_of_list_to_set, list_elem_of_In, filter_In,
    <- list_elem_of_In, elem_of_elements, elem_of_filter.
  rewrite Is_true_true. tauto.
Qed.

(** The two sets the loop of [from_states] builds. *)
Lemma from_states_sets source destination ts :
  foldl (from_states_step h source destination) (∅, ∅) (elements ts)
  = (filter (λ t, matches source (source_of h t)) ts,
     filter (λ t, matches destination (destination_of h t)) ts).
Proof.
  rewrite from_states_loop, !list_filter_elements.
  f_equal; apply (left_id_L ∅ (∪)).
Qed.

Lemma from_states_by_source ts s :
  ∃ r, from_states h ts (Some s) None "and" = Ok r
       ∧ ∀ t, t ∈ r ↔ t ∈ ts ∧ source_of h t = s.
Proof.
  unfold from_states. rewrite from_states_sets. cbn.
  eexists; split; [reflexivity|]. intros t.
  rewrite elem_of_union, !elem_of_filter. cbn.
  rewrite bool_decide_spec. unfold Is_true. tauto.
Qed.
End FromStates.

(** C1, as stated, fails on the transitions of [test_get_transitions]:
    transition 3 goes from state 2 to state 0, so it touches state 0, yet
    [from_states(state0)] holds transitions 1 and 2 only. *)
Lemma from_states_touching_counterexample :
  ¬ from_states_touching Tests.get_transitions {[1; 2; 3; 4]} 0.
Proof.
  intros [r [Hr Hiff]].
  assert (H3 : 3 ∈ r).
  { apply Hiff. split; [set_solver|]. right. reflexivity. }
  destruct (from_states_by_source Tests.get_transitions {[1; 2; 3; 4]} 0)
    as [r' [Hr' Hsrc]].
  rewrite Hr in Hr'. injection Hr' as <-.
  apply Hsrc in H3 as [_ H3]. vm_compute in H3. discriminate.
Qed.

(** C1 (amended): [from_states(source=s)] with the default mode and no
    destination returns exactly the transitions whose source is [s]. *)
Theorem from_states_source (h : Heap) (ts : gset ref) (s : ref) :
  ∃ r, from_states h ts (Some s) None "and" = Ok r
       ∧ ∀ t, t ∈ r ↔ t ∈ ts ∧ source_of h t = s.
Proof. apply from_states_by_source. Qed.

Section FromStatesMode.
Variable h : Heap.

Lemma from_states_both ts s d mode :
  mode ≠ "and" → mode ≠ "or" →
  from_states h ts (Some s) (Some d) mode = Raise ValueError.
Proof.
  intros Hand Hor. unfold from_states. rewrite from_states_sets.
  apply String.eqb_neq in Hand, Hor. rewrite Hand, Hor. reflexivity.
Qed.

Lemma from_states_omitted ts source destination mode :
  source = None ∨ destination = None →
  mode ≠ "and" →
  ∃ r, from_states h ts source destination mode = Ok r
       ∧ ∀ t, t ∈ r ↔ t ∈ ts
              ∧ (matches source (source_of h t)
                 ∨ matches destination (destination_of h t)).
Proof.
  intros Hnone Hand. unfold from_states. rewrite from_states_sets.
  apply String.eqb_neq in Hand. rewrite Hand.
  assert (String.eqb mode "or" || negb (bool_decide (is_Some source))
          || negb (bool_decide (is_Some destination)) = true) as ->.
  { destruct Hnone as [-> | ->]; cbn;
      rewrite ?orb_true_r; reflexivity. }
  cbn. eexists; split; [reflexivity|]. intros t.
  rewrite elem_of_union, !elem_of_filter. tauto.
Qed.
End FromStatesMode.

(** C7, as stated, fails: with the source alone and the mode ["xor"] the
    call returns a set. *)
Lemma from_states_mode_counterexample :
  ¬ fails_with_ValueError
      (from_states Tests.get_transitions {[1; 2; 3; 4]} (Some 0) None "xor").
Proof.
  intros [e [He _]].
  destruct (from_states_omitted Tests.get_transitions {[1; 2; 3; 4]}
              (Some 0) None "xor") as [r [Hr _]]; [by left|done|].
  congruence.
Qed.

(** C7 (amended): with a mode other than ["and"] and ["or"], [from_states]
    fails with ValueError when both a source and a destination are given;
    when either is omitted it does not fail and returns the transitions
    matching the given filter. *)
Theorem from_states_unknown_mode (h : Heap) (ts : gset ref)
    (source destination : option ref) (mode : string) :
  mode ≠ "and" → mode ≠ "or" →
  (is_Some source → is_Some destination →
   from_states h ts source destination mode = Raise ValueError)
  ∧ (source = None ∨ destination = None →
     ∃ r, from_states h ts source destination mode = Ok r
          ∧ ∀ t, t ∈ r ↔ t ∈ ts
                 ∧ (matches source (source_of h t)
                    ∨ matches destination (destination_of h t))).
Proof.
  intros Hand Hor. split.
  - intros [s ->] [d ->]. by apply from_states_both.
  - intros Hnone. by apply from_states_omitted.
Qed.

Lemma from_states_unknown_mode_witness :
  from_states Tests.get_transitions {[1; 2; 3; 4]} (Some 0) (Some 2) "xor"
  = Raise ValueError.
Proof.
  apply (from_states_unknown_mode Tests.get_transitions {[1; 2; 3; 4]}
           (Some 0) (Some 2) "xor"); [discriminate | discriminate | | ];
    eexists; reflexivity.
Defined.

Section Reachability.
Variable h : Heap.

Lemma elem_of_sources ts s : s ∈ sources h ts ↔ is_source h ts s.
Proof.
  unfold sources, is_source.
  rewrite elem_of_list_to_set, list_elem_of_fmap.
  setoid_rewrite elem_of_elements. naive_solver.
Qed.

Lemma elem_of_destinations ts s :
  s ∈ destinations h ts ↔ is_destination h ts s.
Proof.
  unfold destinations, is_destination.
  rewrite elem_of_list_to_set, list_elem_of_fmap.
  setoid_rewrite elem_of_elements. naive_solver.
Qed.

Lemma unreachable_nonempty ts :
  size (sources h ts ∖ destinations h ts) ≠ 0 ↔ only_source h ts.
Proof.
  rewrite size_non_empty_iff. unfold only_source. split.
  - intros Hne. apply set_choose in Hne as [s Hs].
    apply elem_of_difference in Hs as [Hs Hd].
    exists s. by rewrite <- elem_of_sources, <- elem_of_destinations.
  - intros [s [Hs Hd]] Hempty.
    rewrite <- elem_of_sources in Hs. rewrite <- elem_of_destinations in Hd.
    set_solver.
Qed.

Lemma unexitable_nonempty ts :
  size (destinations h ts ∖ sources h ts) ≠ 0 ↔ only_destination h ts.
Proof.
  rewrite size_non_empty_iff. unfold only_destination. split.
  - intros Hne. apply set_choose in Hne as [s Hs].
    apply elem_of_difference in Hs as [Hd Hs].
    exists s. by rewrite <- elem_of_sources, <- elem_of_destinations.
  - intros [s [Hd Hs]] Hempty.
    rewrite <- elem_of_sources in Hs. rewrite <- elem_of_destinations in Hd.
    set_solver.
Qed.
End Reachability.

(** C6: [check_reachability] raises UnreachableState exactly when some
    state is a source and never a destination (sources minus destinations
    is non-empty); it raises UnexitableState exactly when that difference
    is empty and some state is a destination and never a source; it
    returns true exactly when both differences are empty, and it never
    returns false. *)
Theorem check_reachability_spec (h : Heap) (ts : gset ref) :
  (check_reachability h ts = Raise UnreachableState ↔ only_source h ts)
  ∧ (check_reachability h ts = Raise UnexitableState
     ↔ ¬ only_source h ts ∧ only_destination h ts)
  ∧ (check_reachability h ts = Ok true
     ↔ ¬ only_source h ts ∧ ¬ only_destination h ts)
  ∧ (only_source h ts ↔ sources h ts ∖ destinations h ts ≠ ∅)
  ∧ (only_destination h ts ↔ destinations h ts ∖ sources h ts ≠ ∅)
  ∧ check_reachability h ts ≠ Ok false.
Proof.
  pose proof (unreachable_nonempty h ts) as Hu.
  pose proof (unexitable_nonempty h ts) as He.
  assert (Hsu : only_source h ts ↔ sources h ts ∖ destinations h ts ≠ ∅).
  { rewrite <- Hu, size_non_empty_iff. by unfold_leibniz. }
  assert (Hse : only_destination h ts
                ↔ destinations h ts ∖ sources h ts ≠ ∅).
  { rewrite <- He, size_non_empty_iff. by unfold_leibniz. }
  unfold check_reachability.
  destruct (Nat.eqb_spec (size (sources h ts ∖ destinations h ts)) 0) as [E1|E1];
    destruct (Nat.eqb_spec (size (destinations h ts ∖ sources h ts)) 0) as [E2|E2];
    cbn; repeat split; try done; try tauto; try (intros; exfalso; tauto).
Qed.

(** Binding values are read back as the literals. *)
Lemma parse_str_bit v : parse (str_bit v) = Ok (Literal v).
Proof. by destruct v. Qed.

Lemma substitutions_of_total arguments :
  ∃ m, substitutions_of arguments = Ok m.
Proof.
  induction arguments as [|[k v] rest [m IH]]; cbn [substitutions_of].
  - by eexists.
  - rewrite parse_str_bit, IH. by eexists.
Qed.

(** [AbstractCondition.evaluate] always returns an expression. *)
Lemma Condition_evaluate_total expression arguments :
  ∃ e, Condition.evaluate expression arguments = Ok e.
Proof.
  unfold Condition.evaluate.
  destruct (substitutions_of_total arguments) as [m ->]. by eexists.
Qed.

Section Evaluate.
Variable h : Heap.
Variable arguments : list (string * bool).

(** With every condition reduced to a literal, the generator yields
    the transitions whose condition is TRUE. *)
Lemma evaluate_gen_literals l :
  (∀ t, t ∈ l → ∃ b, Condition.evaluate (expression_of h t) arguments
                      = Ok (Literal b)) →
  ∃ r, evaluate_gen h l arguments = Ok r
       ∧ ∀ t, t ∈ r ↔ t ∈ l
              ∧ Condition.evaluate (expression_of h t) arguments = Ok TRUE.
Proof.
  induction l as [|a l IH]; intros Hlit; cbn [evaluate_gen].
  - exists []. split; [done|]. intros t. rewrite elem_of_nil. tauto.
  - destruct (Hlit a) as [b Hb]; [left|].
    destruct IH as [r [Hr Hiff]].
    { intros t Ht. apply Hlit. by right. }
    rewrite Hb, Hr. cbn. eexists; split; [reflexivity|]. intros t.
    destruct b.
    + rewrite !elem_of_cons, Hiff. split.
      * intros [-> | [Ht He]]; [by split; [left|] | by split; [right|]].
      * intros [[-> | Ht] He]; [by left | right; by split].
    + rewrite elem_of_cons, Hiff. split.
      * intros [Ht He]. split; [by right | done].
      * intros [[-> | Ht] He]; [congruence | by split].
Qed.

(** A condition that does not reduce to a literal makes the generator
    fail: its truth value is not defined. *)
Lemma evaluate_gen_residual l t :
  t ∈ l →
  (∀ b, Condition.evaluate (expression_of h t) arguments ≠ Ok (Literal b)) →
  evaluate_gen h l arguments = Raise TypeError.
Proof.
  induction l as [|a l IH]; intros Ht Hres; [by apply elem_of_nil in Ht|].
  cbn [evaluate_gen].
  destruct (Condition_evaluate_total (expression_of h a) arguments)
    as [e He].
  rewrite He. cbn [bind].
  destruct (decide (a = t)) as [-> | Hne].
  - destruct e; try reflexivity. by destruct (Hres b).
  - apply elem_of_cons in Ht as [-> | Ht]; [done|].
    destruct e; try reflexivity. cbn. by rewrite IH.
Qed.

Lemma evaluate_literals ts :
  (∀ t, t ∈ ts → ∃ b, Condition.evaluate (expression_of h t) arguments
                       = Ok (Literal b)) →
  evaluate_selects_true h ts arguments.
Proof.
  intros Hlit. unfold evaluate_selects_true, evaluate.
  destruct (evaluate_gen_literals (elements ts)) as [r [-> Hiff]].
  { intros t Ht. apply Hlit. by apply elem_of_elements. }
  cbn. eexists; split; [reflexivity|]. intros t.
  by rewrite elem_of_list_to_set, Hiff, elem_of_elements.
Qed.

Lemma evaluate_residual ts t :
  t ∈ ts →
  (∀ b, Condition.evaluate (expression_of h t) arguments ≠ Ok (Literal b)) →
  evaluate h ts arguments = Raise TypeError.
Proof.
  intros Ht Hres. unfold evaluate.
  rewrite (evaluate_gen_residual (elements ts) t); [done| |done].
  by apply elem_of_elements.
Qed.
End Evaluate.

(** C3 fails on the transitions of [test_evaluate] (conditions [x | ~y]
    and [~x & y]) with the binding [x=0]: the first condition reduces to
    [~y], which has no truth value, and the call raises TypeError
    instead of leaving the transition out. *)
Theorem evaluate_with_free_variable :
  Condition.evaluate (expression_of Tests.get_transitions 1) [("x", false)]
  = Ok (Not (Var "y"))
  ∧ evaluate Tests.get_transitions {[1; 2]} [("x", false)] = Raise TypeError
  ∧ ¬ evaluate_selects_true Tests.get_transitions {[1; 2]} [("x", false)].
Proof.
  split; [reflexivity|].
  assert (H : evaluate Tests.get_transitions {[1; 2]} [("x", false)]
              = Raise TypeError).
  { apply (evaluate_residual _ _ _ 1); [set_solver|]. intros b. vm_compute.
    discriminate. }
  split; [exact H|]. intros [r [Hr _]]. congruence.
Qed.

Lemma Condition_eq_spec a b : Condition.__eq__ a b = true ↔ a = b.
Proof. unfold Condition.__eq__. by rewrite bool_decide_eq_true. Qed.

(** A new Condition is an object that was not there before. *)
Lemma Condition_init_fresh σ text c σ' :
  Condition.__init__ σ text = Ok (c, σ') →
  σ !! c = None ∧ ∃ e, parse_expression text = Ok e ∧ σ' = <[c := e]> σ.
Proof.
  unfold Condition.__init__. destruct (parse_expression text) as [e|]; [|done].
  cbn. intros [= <- <-]. split; [|by eexists].
  apply not_elem_of_dom, is_fresh.
Qed.

(** C8, as stated, fails: two Conditions built from the text ["x"] hold
    the same expression and are not equal. *)
Lemma Condition_eq_counterexample :
  ∃ c1 σ1 c2 σ2,
    Condition.__init__ ∅ "x" = Ok (c1, σ1)
    ∧ Condition.__init__ σ1 "x" = Ok (c2, σ2)
    ∧ ¬ equal_iff_same_expression σ2 c1 c2.
Proof.
  exists 0, {[ 0 := Var "x" ]}, 1, (<[ 1 := Var "x" ]> {[ 0 := Var "x" ]}).
  split; [reflexivity|]. split; [reflexivity|].
  intros [_ H]. discriminate H. reflexivity.
Qed.

(** C8 (amended): two Condition objects are equal iff they are the same
    instance; two Conditions built from the same expression text are
    different instances, so they compare unequal although their
    expressions are structurally equal. *)
Theorem Condition_eq_identity (σ : gmap ref Expression) (text : string)
    (c1 c2 : ref) (σ1 σ2 : gmap ref Expression) :
  Condition.__init__ σ text = Ok (c1, σ1) →
  Condition.__init__ σ1 text = Ok (c2, σ2) →
  (∀ a b, Condition.__eq__ a b = true ↔ a = b)
  ∧ Condition.__eq__ c1 c2 = false
  ∧ (∃ e, σ2 !! c1 = Some e ∧ σ2 !! c2 = Some e).
Proof.
  intros H1 H2.
  apply Condition_init_fresh in H1 as [_ [e1 [He1 ->]]].
  apply Condition_init_fresh in H2 as [Hfresh [e2 [He2 ->]]].
  assert (e2 = e1) as -> by congruence.
  assert (Hne : c1 ≠ c2).
  { intros ->. by rewrite lookup_insert_eq in Hfresh. }
  split; [apply Condition_eq_spec|]. split.
  - unfold Condition.__eq__. by apply bool_decide_eq_false.
  - exists e1. split.
    + by rewrite lookup_insert_ne, lookup_insert_eq.
    + by rewrite lookup_insert_eq.
Qed.

Lemma Condition_eq_identity_witness :
  Condition.__eq__ 0 1 = false
  ∧ ∃ e, (<[ 1 := Var "x" ]> {[ 0 := Var "x" ]} : gmap ref Expression) !! 0
         = Some e
         ∧ (<[ 1 := Var "x" ]> {[ 0 := Var "x" ]} : gmap ref Expression) !! 1
           = Some e.
Proof.
  apply (Condition_eq_identity ∅ "x" 0 1 {[ 0 := Var "x" ]}
           (<[ 1 := Var "x" ]> {[ 0 := Var "x" ]}));
    reflexivity.
Defined.

Import FilteredCollections State.

Section StateSetFilter.
Variable s : gset ref.

Lemma elem_of_StateSet_values v :
  v ∈ StateSet_values s ↔ ∃ r, v = Obj AbstractState r ∧ r ∈ s.
Proof. unfold StateSet_values. by rewrite elem_of_map. Qed.

(** Every member of a StateSet is a State. *)
Lemma StateSet_values_isinstance v :
  v ∈ StateSet_values s → isinstance v AbstractState = true.
Proof.
  rewrite elem_of_StateSet_values. intros [r [-> _]]. reflexivity.
Qed.

Lemma add_not_State v :
  isinstance v AbstractState = false →
  add AbstractState (StateSet_values s) v = Raise TypeError.
Proof. intros Hv. unfold add, _value_filter. by rewrite Hv. Qed.

Lemma add_State r :
  add AbstractState (StateSet_values s) (Obj AbstractState r)
  = Ok (StateSet_values ({[ r ]} ∪ s)).
Proof.
  unfold add, _value_filter, StateSet_values. cbn. f_equal.
  by rewrite set_map_union_L, set_map_singleton_L.
Qed.

Lemma discard_not_State v :
  isinstance v AbstractState = false →
  hashable v = true →
  discard (StateSet_values s) v = Ok (StateSet_values s).
Proof.
  intros Hv Hh. unfold discard. rewrite Hh. f_equal.
  apply set_eq; intros x. rewrite elem_of_difference, elem_of_singleton.
  split; [tauto|]. intros Hx. split; [done|]. intros ->.
  apply StateSet_values_isinstance in Hx. congruence.
Qed.
End StateSetFilter.

(** C9, as stated, fails: discarding the integer 3 from a StateSet does
    not fail. *)
Lemma discard_counterexample :
  ¬ rejected_by_add_and_discard {[ 0; 1 ]} (VInt 3).
Proof.
  intros [_ H]. rewrite discard_not_State in H; done.
Qed.

(** C9 (amended): [add] rejects a value that is not a State with
    TypeError; [discard] does not filter its argument: discarding a
    hashable value that is not a State does not fail and leaves the
    StateSet as it was. *)
Theorem add_filters_discard_does_not (s : gset ref) (v : value) :
  isinstance v AbstractState = false →
  add AbstractState (StateSet_values s) v = Raise TypeError
  ∧ (hashable v = true →
     discard (StateSet_values s) v = Ok (StateSet_values s)).
Proof.
  intros Hv. split; [by apply add_not_State|]. by apply discard_not_State.
Qed.

Lemma add_filters_discard_does_not_witness :
  add AbstractState (StateSet_values {[ 0; 1 ]}) (VInt 3) = Raise TypeError
  ∧ discard (StateSet_values {[ 0; 1 ]}) (VInt 3)
    = Ok (StateSet_values {[ 0; 1 ]}).
Proof.
  destruct (add_filters_discard_does_not {[ 0; 1 ]} (VInt 3) eq_refl)
    as [Hadd Hdiscard].
  split; [exact Hadd | exact (Hdiscard eq_refl)].
Defined.

Section DelItem.
Variable states : gmap ref State.

Lemma alloc_preserves (σ : gmap ref (gset ref)) elements l :
  l ∈ dom σ → (alloc σ elements).2 !! l = σ !! l.
Proof.
  intros Hl. unfold alloc. cbn. apply lookup_insert_ne.
  intros <-. by apply (is_fresh (dom σ)).
Qed.

Lemma alloc_dom (σ : gmap ref (gset ref)) elements :
  dom σ ⊆ dom (alloc σ elements).2.
Proof. unfold alloc. cbn. rewrite dom_insert_L. set_solver. Qed.

(** [del s[n]] leaves every StateSet object of the store as it was. *)
Lemma delitem_preserves σ self state_name l :
  l ∈ dom σ → __delitem__ states σ self state_name !! l = σ !! l.
Proof.
  intros Hl. unfold __delitem__, getitem_obj, sub_obj.
  destruct (alloc σ _) as [named σ1] eqn:E1.
  destruct (alloc σ1 _) as [difference σ2] eqn:E2.
  assert (H1 : σ1 !! l = σ !! l).
  { replace σ1 with (alloc σ (__getitem__ states (σ !!! self) state_name)).2
      by (by rewrite E1). by apply alloc_preserves. }
  assert (Hl1 : l ∈ dom σ1).
  { replace σ1 with (alloc σ (__getitem__ states (σ !!! self) state_name)).2
      by (by rewrite E1). by apply alloc_dom. }
  rewrite <- H1.
  replace σ2 with (alloc σ1 ((σ1 !!! self) ∖ (σ1 !!! named))).2
    by (by rewrite E2).
  by apply alloc_preserves.
Qed.
End DelItem.

(** C10: [del s[n]] leaves the membership of the StateSet [s] unchanged:
    the states that were members, those named [n] included, still are,
    and no state is added. *)
Theorem delitem_membership_unchanged (states : gmap ref State)
    (σ : gmap ref (gset ref)) (self : ref) (n : string) :
  self ∈ dom σ →
  __delitem__ states σ self n !! self = σ !! self
  ∧ ∀ state, state ∈ σ !!! self
             ↔ state ∈ __delitem__ states σ self n !!! self.
Proof.
  intros Hself.
  pose proof (delitem_preserves states σ self n self Hself) as H.
  split; [exact H|]. intros state.
  by rewrite !lookup_total_alt, H.
Qed.

Lemma delitem_membership_unchanged_witness :
  __delitem__ Tests.two_states {[ 5 := {[ 0; 1 ]} ]} 5 "s0" !! 5
  = ({[ 5 := {[ 0; 1 ]} ]} : gmap ref (gset ref)) !! 5
  ∧ ∀ state, state ∈ ({[ 5 := {[ 0; 1 ]} ]} : gmap ref (gset ref)) !!! 5
             ↔ state ∈ __delitem__ Tests.two_states {[ 5 := {[ 0; 1 ]} ]} 5 "s0"
                         !!! 5.
Proof.
  apply (delitem_membership_unchanged Tests.two_states
           {[ 5 := {[ 0; 1 ]} ]} 5 "s0").
  apply elem_of_dom. exists {[ 0; 1 ]}. reflexivity.
Defined.

(** ** What [is_valid] decides *)
Section Counters.

Lemma count_Counter_add x y k :
  count (Counter_add x y) k = count x k + count y k.
Proof.
  unfold count, Counter_add. rewrite map_lookup_filter, lookup_union_with.
  destruct (x !! k) as [a|], (y !! k) as [b|]; cbn;
    try case_guard; cbn in *; lia.
Qed.

Lemma positive_empty : positive ∅.
Proof. intros k n. by rewrite lookup_empty. Qed.

Lemma positive_Counter_add x y : positive (Counter_add x y).
Proof.
  intros k n. unfold Counter_add. rewrite map_lookup_filter_Some.
  intros [_ Hn]. exact Hn.
Qed.

Lemma positive_foldl l : ∀ acc,
  positive acc → positive (foldl Counter_add acc l).
Proof.
  induction l as [|c l IH]; intros acc Hacc; cbn; [done|].
  apply IH, positive_Counter_add.
Qed.

Lemma elem_of_dom_positive c k : positive c → k ∈ dom c ↔ 0 < count c k.
Proof.
  intros Hpos. rewrite elem_of_dom. unfold count. split.
  - intros [n Hn]. rewrite Hn. cbn. by apply (Hpos k).
  - destruct (c !! k); cbn; [eauto | lia].
Qed.

Lemma count_foldl {A} (g : A → Counter) k l : ∀ acc,
  count (foldl Counter_add acc (g <$> l)) k
  = count acc k + sum_list_with (λ a, count (g a) k) l.
Proof.
  induction l as [|a l IH]; intros acc; cbn; [lia|].
  rewrite IH, count_Counter_add. lia.
Qed.

Lemma count_Counter_of_keys X k :
  count (Counter_of_keys X) k = if decide (k ∈ X) then 1 else 0.
Proof.
  unfold count, Counter_of_keys. case_decide as Hk.
  - by rewrite (proj2 (lookup_gset_to_gmap_Some 1 X k 1)).
  - by rewrite (proj2 (lookup_gset_to_gmap_None 1 X k)).
Qed.

Lemma count_singleton (n k : string) :
  count {[ n := 1 ]} k = if decide (n = k) then 1 else 0.
Proof.
  unfold count. case_decide as H.
  - subst. by rewrite lookup_singleton_eq.
  - by rewrite lookup_singleton_ne.
Qed.

End Counters.

Section Sizes.
Context `{Countable A}.

Lemma length_filter_sum (P : A → Prop) `{!∀ x, Decision (P x)} (l : list A) :
  length (filter P l) = sum_list_with (λ x, if decide (P x) then 1 else 0) l.
Proof.
  induction l as [|a l IH]; [done|].
  rewrite filter_cons. cbn [sum_list_with]. case_decide; cbn [length]; lia.
Qed.

Lemma size_filter_sum (P : A → Prop) `{!∀ x, Decision (P x)} (X : gset A) :
  size (filter P X)
  = sum_list_with (λ x, if decide (P x) then 1 else 0) (elements X).
Proof.
  rewrite <- length_filter_sum. unfold size, set_size. cbn.
  apply Permutation_length, NoDup_Permutation.
  - apply NoDup_elements.
  - apply NoDup_filter, NoDup_elements.
  - intros x. rewrite elem_of_elements, elem_of_filter, list_elem_of_filter,
      elem_of_elements. done.
Qed.

Lemma size_filter_pos (P : A → Prop) `{!∀ x, Decision (P x)} (X : gset A) :
  0 < size (filter P X) ↔ ∃ x, x ∈ X ∧ P x.
Proof.
  split.
  - intros Hpos. apply size_pos_elem_of in Hpos as [x Hx].
    apply elem_of_filter in Hx. exists x. tauto.
  - intros [x [Hx HP]].
    assert (size (filter P X) ≠ 0); [|lia].
    apply size_non_empty_iff. intros Hempty.
    apply (not_elem_of_empty (C:=gset A) x). rewrite <- Hempty.
    apply elem_of_filter. tauto.
Qed.

Lemma size_list_to_set_le (l : list A) :
  size (list_to_set l : gset A) ≤ length l.
Proof.
  induction l as [|a l IH]; cbn; [by rewrite size_empty|].
  rewrite size_union_alt, size_singleton.
  assert (size ((list_to_set l : gset A) ∖ {[ a ]}) ≤ size (list_to_set l : gset A)).
  { apply subseteq_size. set_solver. }
  lia.
Qed.

Lemma size_list_to_set_NoDup (l : list A) :
  size (list_to_set l : gset A) = length l ↔ NoDup l.
Proof.
  split; [|apply size_list_to_set].
  induction l as [|a l IH]; cbn; [constructor|].
  intros Hsize. destruct (decide (a ∈ l)) as [Hin | Hnotin].
  - pose proof (size_list_to_set_le l) as Hle.
    replace ({[ a ]} ∪ list_to_set l) with (list_to_set l : gset A) in Hsize
      by set_solver.
    lia.
  - rewrite size_union in Hsize by set_solver.
    rewrite size_singleton in Hsize.
    constructor; [done|]. apply IH. lia.
Qed.

Lemma NoDup_fmap_inj_on {B} (f : A → B) (l : list A) :
  NoDup (f <$> l) → ∀ x y, x ∈ l → y ∈ l → f x = f y → x = y.
Proof.
  induction l as [|a l IH]; cbn; intros Hnd x y Hx Hy Hf.
  - by apply elem_of_nil in Hx.
  - apply NoDup_cons in Hnd as [Ha Hnd].
    apply elem_of_cons in Hx as [-> | Hx];
      apply elem_of_cons in Hy as [-> | Hy]; [done | | | by apply IH].
    + exfalso. apply Ha. rewrite Hf. by apply list_elem_of_fmap_2.
    + exfalso. apply Ha. rewrite <- Hf. by apply list_elem_of_fmap_2.
Qed.

End Sizes.

Lemma sum_list_with_pointwise {A} (f g : A → nat) (l : list A) :
  (∀ x, f x = g x) → sum_list_with f l = sum_list_with g l.
Proof. intros Hfg. induction l as [|a l IH]; cbn; [done|]. by rewrite Hfg, IH. Qed.

Lemma List_filter_nil {A} (f : A → bool) (l : list A) :
  List.filter f l = [] ↔ ∀ x, In x l → f x = false.
Proof.
  induction l as [|a l IH]; cbn.
  - split; [intros _ x [] | done].
  - destruct (f a) eqn:Ha.
    + split; [done|]. intros Hall. specialize (Hall a (or_introl eq_refl)).
      congruence.
    + rewrite IH. split.
      * intros Hall x [<- | Hx]; [done | by apply Hall].
      * intros Hall x Hx. apply Hall. by right.
Qed.

Section IsValid.
Variable states : gmap ref State.

Lemma count_empty k : count ∅ k = 0.
Proof. unfold count. by rewrite lookup_empty. Qed.

(** The Counter of output names counts the members that carry a name. *)
Lemma count_output_identifiers s o :
  count (_output_identifiers states s) o = members_with_output states s o.
Proof.
  unfold _output_identifiers, members_with_output.
  rewrite count_foldl, count_empty, size_filter_sum. cbn.
  apply sum_list_with_pointwise. intros r. apply count_Counter_of_keys.
Qed.

(** The Counter of names counts the members that bear a name. *)
Lemma count_name_identifiers s n :
  count (_name_identifiers states s) n
  = size (filter (λ r, name (states !!! r) = n) s).
Proof.
  unfold _name_identifiers.
  rewrite count_foldl, count_empty, size_filter_sum. cbn.
  apply sum_list_with_pointwise. intros r. apply count_singleton.
Qed.

Lemma positive_output_identifiers s : positive (_output_identifiers states s).
Proof. apply positive_foldl, positive_empty. Qed.

Lemma positive_name_identifiers s : positive (_name_identifiers states s).
Proof. apply positive_foldl, positive_empty. Qed.

(** [len(outputs)] is the number of distinct output names. *)
Lemma dom_output_identifiers s :
  dom (_output_identifiers states s) = output_names states s.
Proof.
  apply set_eq; intros o.
  rewrite elem_of_dom_positive by apply positive_output_identifiers.
  rewrite count_output_identifiers. unfold members_with_output, output_names.
  rewrite size_filter_pos, elem_of_union_list. split.
  - intros [r [Hr Ho]]. exists (output_identifiers (states !!! r)).
    split; [|done]. apply list_elem_of_fmap. exists r.
    by rewrite elem_of_elements.
  - intros [X [HX Ho]]. apply list_elem_of_fmap in HX as [r [-> Hr]].
    exists r. by rewrite <- elem_of_elements.
Qed.

Lemma size_output_identifiers s :
  size (_output_identifiers states s) = size (output_names states s).
Proof. by rewrite <- dom_output_identifiers, size_dom. Qed.

Lemma dom_name_identifiers s :
  dom (_name_identifiers states s)
  = list_to_set ((λ r, name (states !!! r)) <$> elements s).
Proof.
  apply set_eq; intros n.
  rewrite elem_of_dom_positive by apply positive_name_identifiers.
  rewrite count_name_identifiers, size_filter_pos, elem_of_list_to_set,
    list_elem_of_fmap.
  setoid_rewrite elem_of_elements. naive_solver.
Qed.

(** [len(self) == len(names)] exactly when no two members share a name. *)
Lemma size_name_identifiers s :
  size s = size (_name_identifiers states s) ↔ unique_names states s.
Proof.
  rewrite <- size_dom, dom_name_identifiers.
  replace (size s) with (length ((λ r, name (states !!! r)) <$> elements s))
    by (by rewrite length_fmap).
  split.
  - intros Hsize a b Ha Hb Hname. symmetry in Hsize.
    apply size_list_to_set_NoDup in Hsize.
    apply (NoDup_fmap_inj_on _ _ Hsize); by rewrite ?elem_of_elements.
  - intros Huniq. symmetry. apply size_list_to_set_NoDup.
    apply NoDup_fmap_2_strong; [|apply NoDup_elements].
    intros a b Ha Hb. apply Huniq; by rewrite <- elem_of_elements.
Qed.

(** The first test of [is_valid] passes exactly when every output name
    is on as many members as there are distinct output names. *)
Lemma outputs_test s :
  List.filter
    (λ val, negb (count (_output_identifiers states s) val
                  =? size (_output_identifiers states s)))
    (map fst (map_to_list (_output_identifiers states s))) = []
  ↔ ∀ o, 0 < members_with_output states s o →
         members_with_output states s o = size (output_names states s).
Proof.
  rewrite List_filter_nil. setoid_rewrite negb_false_iff.
  setoid_rewrite Nat.eqb_eq. setoid_rewrite count_output_identifiers.
  rewrite size_output_identifiers.
  assert (Hkeys : ∀ o, In o (map fst (map_to_list (_output_identifiers states s)))
                       ↔ 0 < members_with_output states s o).
  { intros o. rewrite <- count_output_identifiers.
    rewrite <- elem_of_dom_positive by apply positive_output_identifiers.
    rewrite <- list_elem_of_In, elem_of_dom. unfold is_Some.
    change (map fst ?l) with (l.*1). rewrite list_elem_of_fmap. split.
    - intros [[k n] [-> Hkn]]. exists n. by apply elem_of_map_to_list.
    - intros [n Hn]. exists (o, n). split; [done|].
      by apply elem_of_map_to_list. }
  split; intros Hall o Ho; apply Hall, Hkeys, Ho.
Qed.

(** [is_valid] is true exactly when (a) no two members share a name and
    (b') every output name that appears is on as many members as there
    are distinct output names. *)
Lemma is_valid_spec s :
  is_valid states s = true
  ↔ unique_names states s
    ∧ ∀ o, 0 < members_with_output states s o →
           members_with_output states s o = size (output_names states s).
Proof.
  rewrite <- outputs_test, <- size_name_identifiers. unfold is_valid.
  destruct (List.filter _ _) as [|val l].
  - destruct (Nat.eqb_spec (size s) (size (_name_identifiers states s)));
      cbn; intuition congruence.
  - intuition congruence.
Qed.

(** A valid StateSet in the sense of the code is valid in the sense of
    the specification; the two-state example shows the converse fails. *)
Lemma is_valid_sound s : is_valid states s = true → valid states s.
Proof.
  rewrite is_valid_spec. intros [Hnames Houtputs]. split; [done|].
  intros o1 o2 H1 H2. by rewrite (Houtputs o1), (Houtputs o2).
Qed.

End IsValid.

Section TwoStates.
(** The states [s0] and [s1] carry the output [u] and no other. *)
Lemma two_states_outputs r :
  r ∈ ({[ 0; 1 ]} : gset ref) →
  output_identifiers (Tests.two_states !!! r) = {[ "u" ]}.
Proof.
  intros Hr. assert (r = 0 ∨ r = 1) as [-> | ->] by set_solver; reflexivity.
Qed.

Lemma two_states_members_with o :
  members_with_output Tests.two_states {[ 0; 1 ]} o
  = if decide (o = "u") then 2 else 0.
Proof.
  unfold members_with_output. destruct (decide (o = "u")) as [-> | Hne].
  - reflexivity.
  - replace (filter _ _) with (∅ : gset ref); [reflexivity|].
    symmetry. apply set_eq; intros r. rewrite elem_of_filter. split.
    + intros [Ho Hr]. rewrite (two_states_outputs r Hr) in Ho. set_solver.
    + set_solver.
Qed.

Lemma two_states_valid : valid Tests.two_states {[ 0; 1 ]}.
Proof.
  split.
  - intros a b Ha Hb Hname.
    assert (a = 0 ∨ a = 1) as [-> | ->] by set_solver;
      assert (b = 0 ∨ b = 1) as [-> | ->] by set_solver;
      first [reflexivity | vm_compute in Hname; discriminate].
  - intros o1 o2. rewrite !two_states_members_with.
    repeat case_decide; lia.
Qed.
End TwoStates.

(** C2 fails on the states [s0] and [s1] of the end-to-end example, one
    output [u] each: their names differ and [u] is on both, yet
    [is_valid] is false, because the count of [u] (two states) is
    compared with the number of distinct output names (one). *)
Theorem is_valid_two_states :
  is_valid Tests.two_states {[ 0; 1 ]} = false
  ∧ valid Tests.two_states {[ 0; 1 ]}
  ∧ count (_output_identifiers Tests.two_states {[ 0; 1 ]}) "u" = 2
  ∧ size (_output_identifiers Tests.two_states {[ 0; 1 ]}) = 1.
Proof.
  split; [reflexivity|]. split; [apply two_states_valid|].
  split; reflexivity.
Qed.


(** ** Type-filtered sets *)
Section FilteredSetFacts.
Import FilteredCollections FilteredSetMethods.
Variable element_type : py_class.

Lemma value_filter_Ok v v' :
  _value_filter element_type v = Ok v' ↔
  isinstance v element_type = true ∧ v' = v.
Proof.
  unfold _value_filter. destruct (isinstance v element_type); cbn.
  - split; [by intros [= <-] | by intros [_ ->]].
  - split; [done | by intros [? _]].
Qed.

Lemma mapM_value_filter l :
  (Forall (λ v, isinstance v element_type = true) l →
   mapM_result (_value_filter element_type) l = Ok l)
  ∧ (¬ Forall (λ v, isinstance v element_type = true) l →
     mapM_result (_value_filter element_type) l = Raise TypeError).
Proof.
  induction l as [|v l [IHok IHerr]]; cbn.
  - split; [done|]. intros Hn. destruct Hn. constructor.
  - unfold _value_filter at 1 3. destruct (isinstance v element_type) eqn:Hv; cbn.
    + split.
      * intros Hall. apply Forall_cons in Hall as [_ Hall]. by rewrite IHok.
      * intros Hn. rewrite IHerr; [done|]. intros Hall. apply Hn.
        by constructor.
    + split; [|done]. intros Hall. apply Forall_cons in Hall as [Hv' _].
      congruence.
Qed.

Lemma instance_hashable v : isinstance v element_type = true → hashable v = true.
Proof. by destruct v. Qed.

End FilteredSetFacts.

Lemma FilteredSet_ctor (element_type : FilteredCollections.py_class)
    (elements : list FilteredCollections.value) :
  (Forall (λ v, FilteredCollections.isinstance v element_type = true) elements →
   ∃ s, FilteredCollections.FilteredSet element_type elements = Ok s
        ∧ ∀ v, v ∈ s ↔ v ∈ elements)
  ∧ (¬ Forall (λ v, FilteredCollections.isinstance v element_type = true)
         elements →
     FilteredCollections.FilteredSet element_type elements = Raise TypeError).
Proof.
  unfold FilteredCollections.FilteredSet.
  destruct (mapM_value_filter element_type elements) as [Hok Herr]. split.
  - intros Hall. rewrite (Hok Hall). cbn. eexists; split; [reflexivity|].
    intros v. apply elem_of_list_to_set.
  - intros Hn. by rewrite (Herr Hn).
Qed.

(** X1: the constructor of a type-filtered set succeeds exactly when every
    element is an instance of the element type, and then the set holds
    these elements and no other; one element of another type makes it
    fail with TypeError. *)
Theorem FilteredSet_init (element_type : FilteredCollections.py_class)
    (elements : list FilteredCollections.value) :
  (Forall (λ v, FilteredCollections.isinstance v element_type = true) elements →
   ∃ s, FilteredCollections.FilteredSet element_type elements = Ok s
        ∧ ∀ v, v ∈ s ↔ v ∈ elements)
  ∧ (¬ Forall (λ v, FilteredCollections.isinstance v element_type = true)
         elements →
     FilteredCollections.FilteredSet element_type elements = Raise TypeError).
Proof. apply FilteredSet_ctor. Qed.

(** X2: the type invariant. A set built by the constructor holds
    instances of the element type only, and [add] and [discard] keep it
    so. *)
Theorem FilteredSet_type_invariant (element_type : FilteredCollections.py_class) :
  (∀ elements s,
     FilteredCollections.FilteredSet element_type elements = Ok s →
     FilteredSetMethods.all_instances element_type s)
  ∧ (∀ s v s',
       FilteredSetMethods.all_instances element_type s →
       FilteredCollections.add element_type s v = Ok s' →
       FilteredSetMethods.all_instances element_type s')
  ∧ (∀ s v s',
       FilteredSetMethods.all_instances element_type s →
       FilteredCollections.discard s v = Ok s' →
       FilteredSetMethods.all_instances element_type s').
Proof.
  split; [|split].
  - intros elements s Hs x Hx.
    destruct (decide (Forall (λ v, FilteredCollections.isinstance v element_type
                                   = true) elements)) as [Hall | Hn].
    + destruct (proj1 (FilteredSet_ctor element_type elements) Hall)
        as [s' [Hs' Hiff]].
      rewrite Hs in Hs'. injection Hs' as <-.
      apply Hiff in Hx. by eapply Forall_forall in Hall.
    + rewrite (proj2 (FilteredSet_ctor element_type elements) Hn) in Hs.
      discriminate.
  - intros s v s' Hinv Hadd x Hx. unfold FilteredCollections.add in Hadd.
    destruct (FilteredCollections._value_filter element_type v) as [v'|] eqn:Hv;
      [|discriminate].
    apply value_filter_Ok in Hv as [Hv ->]. cbn in Hadd. injection Hadd as <-.
    apply elem_of_union in Hx as [Hx | Hx]; [|by apply Hinv].
    apply elem_of_singleton in Hx. by subst.
  - intros s v s' Hinv Hd x Hx. unfold FilteredCollections.discard in Hd.
    destruct (FilteredCollections.hashable v); [|discriminate].
    injection Hd as <-. apply Hinv. set_solver.
Qed.

(** X3: adding an instance that is not yet a member makes it a member,
    keeps the others, raises the length by one, and discarding it again
    gives the set back. *)
Theorem add_then_discard (element_type : FilteredCollections.py_class)
    (s : gset FilteredCollections.value) (v : FilteredCollections.value) :
  FilteredCollections.isinstance v element_type = true →
  v ∉ s →
  ∃ s', FilteredCollections.add element_type s v = Ok s'
        ∧ (∀ x, x ∈ s' ↔ x = v ∨ x ∈ s)
        ∧ FilteredSetMethods.__contains__ s' v = Ok true
        ∧ FilteredSetMethods.__len__ s' = S (FilteredSetMethods.__len__ s)
        ∧ FilteredCollections.discard s' v = Ok s.
Proof.
  intros Hv Hnotin. exists ({[ v ]} ∪ s).
  pose proof (instance_hashable element_type v Hv) as Hh.
  unfold FilteredCollections.add, FilteredCollections._value_filter,
    FilteredSetMethods.__contains__, FilteredSetMethods.__len__,
    FilteredCollections.discard.
  rewrite Hv, Hh. cbn. split; [done|]. split; [set_solver|]. repeat split.
  - f_equal. apply bool_decide_eq_true. set_solver.
  - rewrite size_union by set_solver. by rewrite size_singleton.
  - f_equal. set_solver.
Qed.

Lemma add_then_discard_witness :
  ∃ s', FilteredCollections.add FilteredCollections.AbstractState
          (State.StateSet_values {[ 0 ]})
          (FilteredCollections.Obj FilteredCollections.AbstractState 1) = Ok s'
        ∧ (∀ x, x ∈ s'
                ↔ x = FilteredCollections.Obj FilteredCollections.AbstractState 1
                  ∨ x ∈ State.StateSet_values {[ 0 ]})
        ∧ FilteredSetMethods.__contains__ s'
            (FilteredCollections.Obj FilteredCollections.AbstractState 1)
          = Ok true
        ∧ FilteredSetMethods.__len__ s'
          = S (FilteredSetMethods.__len__ (State.StateSet_values {[ 0 ]}))
        ∧ FilteredCollections.discard s'
            (FilteredCollections.Obj FilteredCollections.AbstractState 1)
          = Ok (State.StateSet_values {[ 0 ]}).
Proof.
  apply (add_then_discard FilteredCollections.AbstractState
           (State.StateSet_values {[ 0 ]})
           (FilteredCollections.Obj FilteredCollections.AbstractState 1)).
  - reflexivity.
  - intros H. apply elem_of_StateSet_values in H as [r [[= <-] Hr]].
    apply elem_of_singleton in Hr. discriminate.
Defined.

(** X4: adding a member again changes nothing, and discarding a hashable
    value that is not a member changes nothing and does not fail. *)
Theorem add_member_discard_absent (element_type : FilteredCollections.py_class)
    (s : gset FilteredCollections.value) (v : FilteredCollections.value) :
  (FilteredCollections.isinstance v element_type = true → v ∈ s →
   FilteredCollections.add element_type s v = Ok s)
  ∧ (FilteredCollections.hashable v = true → v ∉ s →
     FilteredCollections.discard s v = Ok s).
Proof.
  unfold FilteredCollections.add, FilteredCollections._value_filter,
    FilteredCollections.discard. split.
  - intros -> Hin. cbn. f_equal. set_solver.
  - intros -> Hnotin. f_equal. set_solver.
Qed.

(** ** Filtered dictionaries *)
Section FilteredDictFacts.
Context `{Countable K} {RawK RawV V : Type}.
Variable name_filter : RawK → K.
Variable value_filter : RawV → result V.

(** What the constructor keeps from the dictionary it starts from. *)
Lemma init_inv (P : V → Prop) kwargs : ∀ items items',
  (∀ v v', value_filter v = Ok v' → P v') →
  (∀ k v, items !! k = Some v → P v) →
  FilteredDict.__init__ name_filter value_filter kwargs items = Ok items' →
  ∀ k v, items' !! k = Some v → P v.
Proof.
  induction kwargs as [|[k0 v0] rest IH]; intros items items' Hf Hitems; cbn.
  - intros [= <-]. exact Hitems.
  - destruct (value_filter v0) as [v0'|] eqn:Hv0; [|done]. cbn.
    apply IH; [done|]. intros k v.
    destruct (decide (name_filter k0 = k)) as [<- | Hne].
    + rewrite lookup_insert_eq. intros [= <-]. by eapply Hf.
    + rewrite lookup_insert_ne by done. apply Hitems.
Qed.

Lemma init_Ok kwargs : ∀ items,
  Forall (λ kv, ∃ v', value_filter kv.2 = Ok v') kwargs →
  ∃ items', FilteredDict.__init__ name_filter value_filter kwargs items
            = Ok items'
            ∧ dom items' = dom items ∪ list_to_set (name_filter <$> kwargs.*1).
Proof.
  induction kwargs as [|[k0 v0] rest IH]; intros items Hall; cbn.
  - exists items. split; [done|]. set_solver.
  - apply Forall_cons in Hall as [[v0' Hv0] Hall]. cbn in Hv0.
    rewrite Hv0. cbn.
    destruct (IH (<[name_filter k0 := v0']> items) Hall) as [items' [-> Hdom]].
    exists items'. split; [done|]. rewrite Hdom, dom_insert_L. set_solver.
Qed.

Lemma init_Raise kwargs : ∀ items e,
  FilteredDict.__init__ name_filter value_filter kwargs items = Raise e →
  ∃ kv, kv ∈ kwargs ∧ value_filter kv.2 = Raise e.
Proof.
  induction kwargs as [|[k0 v0] rest IH]; intros items e; cbn; [done|].
  destruct (value_filter v0) as [v0'|e0] eqn:Hv0; cbn.
  - intros Hrest. destruct (IH _ _ Hrest) as [kv [Hkv He]].
    exists kv. split; [by right | done].
  - intros [= <-]. exists (k0, v0). split; [by left | done].
Qed.

End FilteredDictFacts.

(** X5: an item set through a filtered dictionary is read back, filtered,
    under every key with the same filtered name; the items of the other
    names stay as they were; a value the filter refuses leaves no new
    dictionary. *)
Theorem setitem_getitem `{Countable K} {RawK RawV V : Type}
    (name_filter : RawK → K) (value_filter : RawV → result V)
    (items : gmap K V) (key : RawK) (value : RawV) :
  (∀ v, value_filter value = Ok v →
     ∃ items', FilteredDict.__setitem__ name_filter value_filter items key value
               = Ok items'
       ∧ (∀ key', name_filter key' = name_filter key →
            FilteredDict.__getitem__ name_filter items' key' = Some v)
       ∧ (∀ key', name_filter key' ≠ name_filter key →
            FilteredDict.__getitem__ name_filter items' key'
            = FilteredDict.__getitem__ name_filter items key')
       ∧ FilteredDict.__contains__ name_filter items' key = true)
  ∧ (∀ e, value_filter value = Raise e →
       FilteredDict.__setitem__ name_filter value_filter items key value
       = Raise e).
Proof.
  unfold FilteredDict.__setitem__, FilteredDict.__getitem__,
    FilteredDict.__contains__. split.
  - intros v ->. cbn. eexists; split; [reflexivity|]. repeat split.
    + intros key' ->. apply lookup_insert_eq.
    + intros key' Hne. by apply lookup_insert_ne.
    + apply bool_decide_eq_true. rewrite lookup_insert_eq. by eexists.
  - by intros e ->.
Qed.

(** X6: deleting an item fails with the KeyError of the dictionary
    exactly when the key is not contained; otherwise the key is no longer
    contained, the length drops by one and the other items stay. *)
Theorem delitem_contains `{Countable K} {RawK V : Type}
    (name_filter : RawK → K) (items : gmap K V) (key : RawK) :
  (FilteredDict.__delitem__ name_filter items key = None
   ↔ FilteredDict.__contains__ name_filter items key = false)
  ∧ (∀ items', FilteredDict.__delitem__ name_filter items key = Some items' →
       FilteredDict.__contains__ name_filter items' key = false
       ∧ S (FilteredDict.__len__ items') = FilteredDict.__len__ items
       ∧ (∀ key', name_filter key' ≠ name_filter key →
            FilteredDict.__getitem__ name_filter items' key'
            = FilteredDict.__getitem__ name_filter items key')
       ∧ FilteredDict.__getitem__ name_filter items' key = None).
Proof.
  unfold FilteredDict.__delitem__, FilteredDict.__contains__,
    FilteredDict.__len__, FilteredDict.__getitem__.
  destruct (items !! name_filter key) as [v|] eqn:Hk; split.
  - split; [done|]. intros Hc. apply bool_decide_eq_false in Hc.
    destruct Hc. by eexists.
  - intros items' [= <-]. repeat split.
    + apply bool_decide_eq_false. rewrite lookup_delete_eq. by intros [? ?].
    + rewrite <- (insert_id items _ v Hk) at 2.
      rewrite <- insert_delete_eq.
      by rewrite map_size_insert_None by apply lookup_delete_eq.
    + intros key' Hne. by apply lookup_delete_ne.
    + apply lookup_delete_eq.
  - split; [|done]. intros _. apply bool_decide_eq_false. by intros [? ?].
  - done.
Qed.

Lemma init_Ok_inv `{Countable K} {RawK RawV V : Type}
    (name_filter : RawK → K) (value_filter : RawV → result V) kwargs :
  ∀ items items',
  FilteredDict.__init__ name_filter value_filter kwargs items = Ok items' →
  Forall (λ kv, ∃ v', value_filter kv.2 = Ok v') kwargs.
Proof.
  induction kwargs as [|[k0 v0] rest IH]; intros items items'; cbn.
  - constructor.
  - destruct (value_filter v0) as [v0'|] eqn:Hv0; [|done]. cbn.
    intros Hrest. constructor; [by eexists | by eapply IH].
Qed.

Section OutputsDictFacts.
Import FilteredDict.

Lemma value_filter_supported value :
  supported value = true → value_filter value = Ok (int value).
Proof. unfold value_filter. by intros ->. Qed.

Lemma value_filter_unsupported value :
  supported value = false → value_filter value = Raise ValueError.
Proof. unfold value_filter. by intros ->. Qed.

Lemma value_filter_bit value z : value_filter value = Ok z → bit z.
Proof.
  unfold value_filter, bit.
  destruct value as [n|s|b|]; cbn; try done.
  - destruct (bool_decide (n = 0%Z)) eqn:H0; cbn.
    + apply bool_decide_eq_true in H0. intros [= <-]. by left.
    + destruct (bool_decide (n = 1%Z)) eqn:H1; cbn; [|done].
      apply bool_decide_eq_true in H1. intros [= <-]. by right.
  - destruct (String.eqb s "0") eqn:H0; cbn.
    + apply String.eqb_eq in H0 as ->. intros [= <-]. by left.
    + destruct (String.eqb s "1") eqn:H1; cbn; [|done].
      intros [= <-]. by right.
  - destruct b; intros [= <-]; [by right | by left].
Qed.

Lemma value_filter_Ok_supported value z :
  value_filter value = Ok z → supported value = true.
Proof. unfold value_filter. by destruct (supported value). Qed.

End OutputsDictFacts.

(** X7: the value filter of the outputs accepts 0, ['0'] and False as 0,
    and 1, ['1'] and True as 1; every other integer or string, and None,
    is refused with ValueError. *)
Theorem OutputsDict_value_filter (value : FilteredDict.raw) :
  (FilteredDict.value_filter value = Ok 0%Z
   ↔ value = FilteredDict.RInt 0 ∨ value = FilteredDict.RStr "0"
     ∨ value = FilteredDict.RBool false)
  ∧ (FilteredDict.value_filter value = Ok 1%Z
     ↔ value = FilteredDict.RInt 1 ∨ value = FilteredDict.RStr "1"
       ∨ value = FilteredDict.RBool true)
  ∧ (FilteredDict.value_filter value = Raise ValueError
     ↔ FilteredDict.value_filter value ≠ Ok 0%Z
       ∧ FilteredDict.value_filter value ≠ Ok 1%Z).
Proof.
  split; [|split].
  - split.
    + intros Hv. pose proof (value_filter_Ok_supported _ _ Hv) as Hs.
      rewrite (value_filter_supported _ Hs) in Hv. injection Hv as Hv.
      destruct value as [n|s|b|]; cbn in *; try done.
      * left. by subst.
      * right; left. f_equal.
        destruct (String.eqb s "0") eqn:E0; [by apply String.eqb_eq|].
        destruct (String.eqb s "1") eqn:E1; done.
      * right; right. by destruct b.
    + intros [-> | [-> | ->]]; reflexivity.
  - split.
    + intros Hv. pose proof (value_filter_Ok_supported _ _ Hv) as Hs.
      rewrite (value_filter_supported _ Hs) in Hv. injection Hv as Hv.
      destruct value as [n|s|b|]; cbn in *; try done.
      * left. by subst.
      * right; left. f_equal.
        destruct (String.eqb s "1") eqn:E1; [by apply String.eqb_eq|done].
      * right; right. by destruct b.
    + intros [-> | [-> | ->]]; reflexivity.
  - split.
    + intros ->. done.
    + intros [H0 H1].
      destruct (FilteredDict.value_filter value) as [z|e] eqn:Hv.
      * destruct (value_filter_bit _ _ Hv) as [-> | ->]; done.
      * unfold FilteredDict.value_filter in Hv.
        destruct (FilteredDict.supported value); cbn in Hv; congruence.
Qed.

(** X8: the outputs of a State hold 0 and 1 only. [OutputsDict] of
    keyword arguments succeeds exactly when every value is supported; its
    keys are the argument names and its values are 0 or 1, and an
    assignment that succeeds keeps the values 0 or 1; with an unsupported
    value the constructor fails with ValueError. *)
Theorem OutputsDict_bits (kwargs : list (string * FilteredDict.raw)) :
  (Forall (λ kv, FilteredDict.supported kv.2 = true) kwargs →
   ∃ items, FilteredDict.OutputsDict kwargs = Ok items
     ∧ dom items = list_to_set (kwargs.*1)
     ∧ (∀ k z, items !! k = Some z → FilteredDict.bit z)
     ∧ (∀ key value items',
          FilteredDict.__setitem__ FilteredDict.name_filter
            FilteredDict.value_filter items key value = Ok items' →
          ∀ k z, items' !! k = Some z → FilteredDict.bit z))
  ∧ (¬ Forall (λ kv, FilteredDict.supported kv.2 = true) kwargs →
     FilteredDict.OutputsDict kwargs = Raise ValueError).
Proof.
  unfold FilteredDict.OutputsDict. split.
  - intros Hall.
    destruct (init_Ok FilteredDict.name_filter FilteredDict.value_filter
                kwargs ∅) as [items [Hinit Hdom]].
    { eapply Forall_impl; [exact Hall|]. intros [k v] Hs. cbn in *.
      exists (FilteredDict.int v). by apply value_filter_supported. }
    assert (Hbits : ∀ k z, items !! k = Some z → FilteredDict.bit z).
    { eapply (init_inv _ _ FilteredDict.bit); [| |exact Hinit].
      - apply value_filter_bit.
      - intros k z. by rewrite lookup_empty. }
    exists items. split; [done|]. split.
    { rewrite Hdom, dom_empty_L, (left_id_L ∅ (∪)).
      unfold FilteredDict.name_filter. by rewrite list_fmap_id. }
    split; [done|].
    intros key value items' Hset k z. unfold FilteredDict.__setitem__ in Hset.
    destruct (FilteredDict.value_filter value) as [v|] eqn:Hv; [|done].
    cbn in Hset. injection Hset as <-.
    destruct (decide (FilteredDict.name_filter key = k)) as [<- | Hne].
    + rewrite lookup_insert_eq. intros [= <-]. by eapply value_filter_bit.
    + rewrite lookup_insert_ne by done. apply Hbits.
  - intros Hn.
    destruct (FilteredDict.__init__ _ _ kwargs ∅) as [items|e] eqn:Hinit.
    + destruct Hn. apply init_Ok_inv in Hinit.
      eapply Forall_impl; [exact Hinit|]. intros [k v] [z Hz]. cbn in *.
      by eapply value_filter_Ok_supported.
    + apply init_Raise in Hinit as [[k v] [_ Hv]]. cbn in Hv.
      unfold FilteredDict.value_filter in Hv.
      destruct (FilteredDict.supported v); cbn in Hv; congruence.
Qed.

(** ** Sets of states *)
Lemma size_gt_1_elems `{Countable A} (X : gset A) :
  1 < size X → ∃ a b, a ∈ X ∧ b ∈ X ∧ a ≠ b.
Proof.
  intros Hsize.
  destruct (size_pos_elem_of X) as [a Ha]; [lia|].
  destruct (size_pos_elem_of (X ∖ {[ a ]})) as [b Hb].
  { rewrite size_difference by set_solver. rewrite size_singleton. lia. }
  exists a, b. set_solver.
Qed.

Section StateSetFacts.
Variable states : gmap ref State.

Lemma getitem_filter s n :
  __getitem__ states s n = filter (λ r, name (states !!! r) = n) s.
Proof. unfold __getitem__. apply set_eq; intros r. rewrite !elem_of_filter. naive_solver. Qed.

Lemma size_names_le s : size (_name_identifiers states s) ≤ size s.
Proof.
  rewrite <- size_dom, dom_name_identifiers.
  etrans; [apply size_list_to_set_le|]. by rewrite length_fmap.
Qed.

Lemma members_with_output_le s o : members_with_output states s o ≤ size s.
Proof. unfold members_with_output. apply subseteq_size. set_solver. Qed.

Lemma unique_names_getitem s :
  unique_names states s ↔ ∀ n, size (__getitem__ states s n) ≤ 1.
Proof.
  split.
  - intros Huniq n.
    destruct (decide (size (__getitem__ states s n) ≤ 1)) as [|Hgt]; [done|].
    exfalso. assert (Hsize : 1 < size (__getitem__ states s n)) by lia.
    apply size_gt_1_elems in Hsize. destruct Hsize as [a [b [Ha [Hb Hab]]]].
    unfold __getitem__ in Ha, Hb.
    apply elem_of_filter in Ha as [Hna Ha], Hb as [Hnb Hb].
    apply Hab, Huniq; congruence.
  - intros Hsize a b Ha Hb Hname.
    specialize (Hsize (name (states !!! a))).
    destruct (decide (a = b)) as [|Hne]; [done|]. exfalso.
    assert (Hsub : ({[ a; b ]} : gset ref)
                   ⊆ __getitem__ states s (name (states !!! a))).
    { unfold __getitem__. intros x Hx. apply elem_of_filter.
      apply elem_of_union in Hx as [Hx | Hx]; apply elem_of_singleton in Hx;
        subst; auto. }
    apply subseteq_size in Hsub.
    rewrite size_union in Hsub by set_solver.
    rewrite !size_singleton in Hsub. lia.
Qed.

End StateSetFacts.

(** X9: [names] counts, for every name, the members that bear it: the
    count of [n] is the length of [self[n]]; [n] is a key exactly when
    some member is named [n]; and there are at most as many names as
    members. *)
Theorem names_counts (states : gmap ref State) (s : gset ref) (n : string) :
  count (StateSetProperties.names states s) n = size (__getitem__ states s n)
  ∧ (n ∈ dom (StateSetProperties.names states s)
     ↔ ∃ r, r ∈ s ∧ name (states !!! r) = n)
  ∧ size (StateSetProperties.names states s) ≤ size s.
Proof.
  unfold StateSetProperties.names. split; [|split].
  - by rewrite count_name_identifiers, getitem_filter.
  - rewrite elem_of_dom_positive by apply positive_name_identifiers.
    rewrite count_name_identifiers. apply size_filter_pos.
  - apply size_names_le.
Qed.

(** X10: [outputs] counts, for every output name, the members that carry
    it; the name is a key exactly when some member carries it, and no
    count exceeds the number of members. *)
Theorem outputs_counts (states : gmap ref State) (s : gset ref) (o : string) :
  count (StateSetProperties.outputs states s) o
  = size (filter (λ r, o ∈ output_identifiers (states !!! r)) s)
  ∧ (o ∈ dom (StateSetProperties.outputs states s)
     ↔ ∃ r, r ∈ s ∧ o ∈ output_identifiers (states !!! r))
  ∧ count (StateSetProperties.outputs states s) o ≤ size s.
Proof.
  unfold StateSetProperties.outputs.
  rewrite count_output_identifiers. split; [done|]. split.
  - rewrite elem_of_dom_positive by apply positive_output_identifiers.
    rewrite count_output_identifiers. apply size_filter_pos.
  - apply members_with_output_le.
Qed.

(** X11: what [is_valid] decides: it is true exactly when no two members
    share a name and every output name some member carries is carried by
    as many members as there are distinct output names. *)
Theorem is_valid_decides (states : gmap ref State) (s : gset ref) :
  is_valid states s = true
  ↔ (∀ a b, a ∈ s → b ∈ s → name (states !!! a) = name (states !!! b) → a = b)
    ∧ ∀ o, 0 < size (filter (λ r, o ∈ output_identifiers (states !!! r)) s) →
           size (filter (λ r, o ∈ output_identifiers (states !!! r)) s)
           = size (output_names states s).
Proof. apply is_valid_spec. Qed.

(** X12: in a valid StateSet a name selects at most one state. *)
Theorem is_valid_getitem (states : gmap ref State) (s : gset ref) (n : string) :
  is_valid states s = true → size (__getitem__ states s n) ≤ 1.
Proof.
  intros Hvalid. apply is_valid_spec in Hvalid as [Huniq _].
  by apply unique_names_getitem.
Qed.

Lemma is_valid_getitem_witness :
  size (__getitem__ Fixtures.complete_fsm_states {[ 0; 1 ]} "s0") ≤ 1.
Proof.
  apply (is_valid_getitem Fixtures.complete_fsm_states {[ 0; 1 ]} "s0").
  reflexivity.
Defined.

(** ** Sets of transitions *)
Section FromStatesFacts.
Variable h : Heap.

Lemma matches_Some s endpoint :
  matches (Some s) endpoint ↔ endpoint = s.
Proof. cbn. by rewrite bool_decide_spec. Qed.

Lemma from_states_matching_both ts s d :
  ∃ r, from_states h ts (Some s) (Some d) "and" = Ok r
       ∧ ∀ t, t ∈ r ↔ t ∈ ts ∧ source_of h t = s ∧ destination_of h t = d.
Proof.
  unfold from_states. rewrite from_states_sets. cbn.
  eexists; split; [reflexivity|]. intros t.
  rewrite elem_of_intersection, !elem_of_filter, !bool_decide_spec. tauto.
Qed.

Lemma from_states_matching_either ts s d :
  ∃ r, from_states h ts (Some s) (Some d) "or" = Ok r
       ∧ ∀ t, t ∈ r ↔ t ∈ ts ∧ (source_of h t = s ∨ destination_of h t = d).
Proof.
  unfold from_states. rewrite from_states_sets. cbn.
  eexists; split; [reflexivity|]. intros t.
  rewrite elem_of_union, !elem_of_filter, !bool_decide_spec. tauto.
Qed.

(** With a filter omitted the mode is not looked at. *)
Lemma from_states_any_mode ts source destination mode :
  source = None ∨ destination = None →
  ∃ r, from_states h ts source destination mode = Ok r
       ∧ ∀ t, t ∈ r ↔ t ∈ ts
              ∧ (matches source (source_of h t)
                 ∨ matches destination (destination_of h t)).
Proof.
  intros Hnone. unfold from_states. rewrite from_states_sets.
  assert (String.eqb mode "and" && bool_decide (is_Some source)
          && bool_decide (is_Some destination) = false) as ->.
  { destruct Hnone as [-> | ->]; cbn;
      rewrite ?andb_false_r; reflexivity. }
  assert (String.eqb mode "or" || negb (bool_decide (is_Some source))
          || negb (bool_decide (is_Some destination)) = true) as ->.
  { destruct Hnone as [-> | ->]; cbn; rewrite ?orb_true_r; reflexivity. }
  eexists; split; [reflexivity|]. intros t.
  rewrite elem_of_union, !elem_of_filter. tauto.
Qed.

End FromStatesFacts.

(** X13: with both states given and the mode ["and"], [from_states]
    returns exactly the transitions from the source to the destination. *)
Theorem from_states_mode_and (h : Heap) (ts : gset ref) (s d : ref) :
  ∃ r, from_states h ts (Some s) (Some d) "and" = Ok r
       ∧ ∀ t, t ∈ r ↔ t ∈ ts ∧ source_of h t = s ∧ destination_of h t = d.
Proof. apply from_states_matching_both. Qed.

(** X14: with both states given and the mode ["or"], [from_states]
    returns exactly the transitions that leave the source or enter the
    destination; with one state given twice, as the drawing area calls
    it, these are the transitions incident to the state. *)
Theorem from_states_mode_or (h : Heap) (ts : gset ref) (s d : ref) :
  (∃ r, from_states h ts (Some s) (Some d) "or" = Ok r
        ∧ ∀ t, t ∈ r ↔ t ∈ ts ∧ (source_of h t = s ∨ destination_of h t = d))
  ∧ (∃ r, from_states h ts (Some s) (Some s) "or" = Ok r
          ∧ ∀ t, t ∈ r ↔ t ∈ ts ∧ touches h s t).
Proof. split; apply from_states_matching_either. Qed.

(** X15: when the source or the destination is omitted the mode has no
    effect, whatever it is: with the destination alone the result is the
    transitions that enter it, with the source alone those that leave
    it, and with neither the empty set. *)
Theorem from_states_mode_no_effect (h : Heap) (ts : gset ref) (s : ref)
    (mode : string) :
  (∃ r, from_states h ts None (Some s) mode = Ok r
        ∧ ∀ t, t ∈ r ↔ t ∈ ts ∧ destination_of h t = s)
  ∧ (∃ r, from_states h ts (Some s) None mode = Ok r
          ∧ ∀ t, t ∈ r ↔ t ∈ ts ∧ source_of h t = s)
  ∧ from_states h ts None None mode = Ok ∅.
Proof.
  split; [|split].
  - destruct (from_states_any_mode h ts None (Some s) mode) as [r [Hr Hiff]];
      [by left|].
    exists r. split; [done|]. intros t. rewrite Hiff, matches_Some. cbn.
    tauto.
  - destruct (from_states_any_mode h ts (Some s) None mode) as [r [Hr Hiff]];
      [by right|].
    exists r. split; [done|]. intros t. rewrite Hiff, matches_Some. cbn.
    tauto.
  - destruct (from_states_any_mode h ts None None mode) as [r [Hr Hiff]];
      [by left|].
    rewrite Hr. f_equal. apply set_eq; intros t. rewrite Hiff. cbn.
    set_solver.
Qed.

Section ParallelsFacts.
Variable h : Heap.

Lemma parallels_spec t u :
  TransitionMethods.parallels h t u = true
  ↔ source_of h t = source_of h u ∧ destination_of h t = destination_of h u.
Proof.
  unfold TransitionMethods.parallels. cbn.
  by rewrite andb_true_iff, !bool_decide_eq_true.
Qed.

End ParallelsFacts.

(** X16: [parallels] is an equivalence of transitions (condition
    ignored), and [from_states] with the ends of a transition [u] returns
    exactly the members that parallel [u]. *)
Theorem parallels_from_states (h : Heap) (ts : gset ref) (u : ref) :
  (∀ t, TransitionMethods.parallels h t t = true)
  ∧ (∀ t t', TransitionMethods.parallels h t t'
             = TransitionMethods.parallels h t' t)
  ∧ (∀ t t' t'', TransitionMethods.parallels h t t' = true →
                 TransitionMethods.parallels h t' t'' = true →
                 TransitionMethods.parallels h t t'' = true)
  ∧ ∃ r, from_states h ts (Some (source_of h u)) (Some (destination_of h u))
           "and" = Ok r
         ∧ ∀ t, t ∈ r ↔ t ∈ ts ∧ TransitionMethods.parallels h t u = true.
Proof.
  split; [|split; [|split]].
  - intros t. by apply parallels_spec.
  - intros t t'. apply eq_true_iff_eq. rewrite !parallels_spec.
    split; intros [H1 H2]; split; congruence.
  - intros t t' t''. rewrite !parallels_spec.
    intros [H1 H2] [H3 H4]. split; congruence.
  - destruct (from_states_matching_both h ts (source_of h u) (destination_of h u))
      as [r [Hr Hiff]].
    exists r. split; [done|]. intros t. by rewrite Hiff, parallels_spec.
Qed.

Section ReachabilityFacts.
Variable h : Heap.

Lemma check_reachability_true ts :
  check_reachability h ts = Ok true
  ↔ sources h ts ∖ destinations h ts = ∅
    ∧ destinations h ts ∖ sources h ts = ∅.
Proof.
  unfold check_reachability.
  destruct (Nat.eqb_spec (size (sources h ts ∖ destinations h ts)) 0)
    as [E1|E1];
    destruct (Nat.eqb_spec (size (destinations h ts ∖ sources h ts)) 0)
    as [E2|E2]; cbn.
  - apply size_empty_inv in E1, E2. unfold_leibniz. tauto.
  - split; [done|]. intros [_ Hd]. rewrite Hd, size_empty in E2. done.
  - split; [done|]. intros [Hs _]. rewrite Hs, size_empty in E1. done.
  - split; [done|]. intros [Hs _]. rewrite Hs, size_empty in E1. done.
Qed.

Lemma check_reachability_eq ts :
  check_reachability h ts = Ok true ↔ sources h ts = destinations h ts.
Proof.
  rewrite check_reachability_true. split.
  - intros [Hs Hd]. apply set_eq; intros s.
    destruct (decide (s ∈ sources h ts)), (decide (s ∈ destinations h ts));
      set_solver.
  - intros ->. split; set_solver.
Qed.

End ReachabilityFacts.

(** X17: [check_reachability] returns true exactly when the states that
    are sources are the states that are destinations. *)
Theorem check_reachability_sources_destinations (h : Heap) (ts : gset ref) :
  check_reachability h ts = Ok true ↔ sources h ts = destinations h ts.
Proof. apply check_reachability_eq. Qed.

(** X18: a set of transitions that all go from a state to itself passes
    [check_reachability]; so does the empty set. *)
Theorem check_reachability_loops (h : Heap) (ts : gset ref) :
  (∀ t, t ∈ ts → source_of h t = destination_of h t) →
  check_reachability h ts = Ok true.
Proof.
  intros Hloop. apply check_reachability_eq. apply set_eq; intros s.
  rewrite elem_of_sources, elem_of_destinations.
  unfold is_source, is_destination.
  split; intros [t [Ht Hs]]; exists t; split; try done;
    specialize (Hloop t Ht); congruence.
Qed.

Lemma check_reachability_loops_witness :
  check_reachability Tests.get_transitions {[ 4 ]} = Ok true.
Proof.
  apply (check_reachability_loops Tests.get_transitions {[ 4 ]}).
  intros t Ht. apply elem_of_singleton in Ht. rewrite Ht. reflexivity.
Defined.

(** X19: when [check_reachability] returns true, every state that a
    transition touches has a transition that leaves it and one that
    enters it: [from_states] with the state as the source, and with the
    state as the destination, are both non-empty. *)
Theorem check_reachability_from_states (h : Heap) (ts : gset ref) (s : ref) :
  check_reachability h ts = Ok true →
  is_source h ts s ∨ is_destination h ts s →
  (∃ r, from_states h ts (Some s) None "and" = Ok r ∧ r ≠ ∅)
  ∧ (∃ r, from_states h ts None (Some s) "and" = Ok r ∧ r ≠ ∅).
Proof.
  intros Hcheck Hs. apply check_reachability_eq in Hcheck.
  assert (Hboth : is_source h ts s ∧ is_destination h ts s).
  { rewrite <- elem_of_sources, <- elem_of_destinations in *.
    rewrite Hcheck in *. tauto. }
  destruct Hboth as [[t [Ht Hts]] [t' [Ht' Hts']]]. split.
  - destruct (from_states_any_mode h ts (Some s) None "and") as [r [Hr Hiff]];
      [by right|].
    exists r. split; [done|]. intros Hempty.
    assert (t ∈ r); [|set_solver].
    apply Hiff. split; [done|]. left. by apply matches_Some.
  - destruct (from_states_any_mode h ts None (Some s) "and") as [r [Hr Hiff]];
      [by left|].
    exists r. split; [done|]. intros Hempty.
    assert (t' ∈ r); [|set_solver].
    apply Hiff. split; [done|]. right. by apply matches_Some.
Qed.

Lemma check_reachability_from_states_witness :
  (∃ r, from_states Fixtures.complete_fsm {[ 10; 11; 12; 13 ]} (Some 0) None
          "and" = Ok r ∧ r ≠ ∅)
  ∧ (∃ r, from_states Fixtures.complete_fsm {[ 10; 11; 12; 13 ]} None (Some 0)
            "and" = Ok r ∧ r ≠ ∅).
Proof.
  apply (check_reachability_from_states Fixtures.complete_fsm
           {[ 10; 11; 12; 13 ]} 0).
  - reflexivity.
  - left. exists 10. split; [set_solver | reflexivity].
Defined.

(** ** Evaluation under complete bindings *)
Section SubstitutionFacts.
Import Semantics.

Lemma substitutions_of_literals arguments :
  substitutions_of arguments
  = Ok (Literal <$> (list_to_map arguments : gmap string bool)).
Proof.
  induction arguments as [|[k v] rest IH]; cbn [substitutions_of].
  - by rewrite list_to_map_nil, fmap_empty.
  - rewrite parse_str_bit, IH. cbn. by rewrite fmap_insert.
Qed.

Lemma existsb_false_literals {A} (f : A → bool) (l : list A) :
  existsb (is_lit false) (map (λ e, Literal (f e)) l) = negb (forallb f l).
Proof.
  induction l as [|a l IH]; cbn; [done|]. rewrite IH. by destruct (f a).
Qed.

Lemma existsb_true_literals {A} (f : A → bool) (l : list A) :
  existsb (is_lit true) (map (λ e, Literal (f e)) l) = existsb f l.
Proof.
  induction l as [|a l IH]; cbn; [done|]. rewrite IH. by destruct (f a).
Qed.

Lemma filter_all_true {A} (f : A → bool) (l : list A) :
  forallb f l = true →
  List.filter (λ e, negb (is_lit true e)) (map (λ e, Literal (f e)) l) = [].
Proof.
  induction l as [|a l IH]; cbn; [done|].
  destruct (f a); cbn; [exact IH | done].
Qed.

Lemma filter_all_false {A} (f : A → bool) (l : list A) :
  existsb f l = false →
  List.filter (λ e, negb (is_lit false e)) (map (λ e, Literal (f e)) l) = [].
Proof.
  induction l as [|a l IH]; cbn; [done|].
  destruct (f a); cbn; [done | exact IH].
Qed.

Lemma simplify_and_literals {A} (f : A → bool) (l : list A) :
  simplify_and (map (λ e, Literal (f e)) l) = Literal (forallb f l).
Proof.
  unfold simplify_and. rewrite existsb_false_literals.
  destruct (forallb f l) eqn:Hall; cbn; [|done].
  by rewrite filter_all_true.
Qed.

Lemma simplify_or_literals {A} (f : A → bool) (l : list A) :
  simplify_or (map (λ e, Literal (f e)) l) = Literal (existsb f l).
Proof.
  unfold simplify_or. rewrite existsb_true_literals.
  destruct (existsb f l) eqn:Hex; cbn; [done|].
  by rewrite filter_all_false.
Qed.

Lemma symbols_operand (l : list Expression) a :
  a ∈ l → symbols a ⊆ ⋃ (map symbols l).
Proof.
  intros Ha n Hn. apply elem_of_union_list. exists (symbols a).
  split; [|done]. apply list_elem_of_In, in_map, list_elem_of_In, Ha.
Qed.

(** With every symbol bound to a literal, substitution computes the
    value of the expression. *)
Lemma subs_truth (m : gmap string bool) e :
  symbols e ⊆ dom m →
  subs (Literal <$> m) e = Literal (truth (λ n, default false (m !! n)) e).
Proof.
  induction e as [b|n|e IH|l IH|l IH] using Expression_nested_ind;
    cbn [subs truth symbols]; intros Hsub.
  - done.
  - assert (Hn : n ∈ dom m) by set_solver.
    apply elem_of_dom in Hn as [b Hb]. by rewrite lookup_fmap, Hb.
  - by rewrite IH.
  - rewrite <- simplify_and_literals. f_equal.
    apply map_ext_in. intros a Ha. apply list_elem_of_In in Ha.
    eapply Forall_forall in IH; [|exact Ha]. apply IH.
    etrans; [by apply symbols_operand|done].
  - rewrite <- simplify_or_literals. f_equal.
    apply map_ext_in. intros a Ha. apply list_elem_of_In in Ha.
    eapply Forall_forall in IH; [|exact Ha]. apply IH.
    etrans; [by apply symbols_operand|done].
Qed.

Lemma Condition_evaluate_truth expression arguments :
  symbols expression ⊆ bound arguments →
  Condition.evaluate expression arguments
  = Ok (Literal (truth (binding arguments) expression)).
Proof.
  intros Hsub. unfold Condition.evaluate.
  rewrite substitutions_of_literals. cbn. f_equal.
  apply subs_truth. unfold bound in Hsub. by rewrite dom_list_to_map_L.
Qed.

End SubstitutionFacts.

(** X20: when the keyword arguments bind every symbol of every member's
    condition, [evaluate] does not fail and returns exactly the
    transitions whose condition is true under these values. *)
Theorem evaluate_complete_bindings (h : Heap) (ts : gset ref)
    (arguments : list (string * bool)) :
  (∀ t, t ∈ ts → symbols (expression_of h t) ⊆ Semantics.bound arguments) →
  ∃ r, evaluate h ts arguments = Ok r
       ∧ ∀ t, t ∈ r
              ↔ t ∈ ts
                ∧ Semantics.truth (Semantics.binding arguments)
                    (expression_of h t) = true.
Proof.
  intros Hbound.
  destruct (evaluate_literals h arguments ts) as [r [Hr Hiff]].
  { intros t Ht. eexists. by apply Condition_evaluate_truth, Hbound. }
  exists r. split; [done|]. intros t. rewrite Hiff. split.
  - intros [Ht He]. split; [done|].
    rewrite Condition_evaluate_truth in He by by apply Hbound.
    by injection He.
  - intros [Ht He]. split; [done|].
    rewrite Condition_evaluate_truth by by apply Hbound. by rewrite He.
Qed.

Lemma evaluate_complete_bindings_witness :
  ∃ r, evaluate Tests.get_transitions {[ 1; 2 ]} [("x", true); ("y", false)]
       = Ok r
       ∧ ∀ t, t ∈ r
              ↔ t ∈ ({[ 1; 2 ]} : gset ref)
                ∧ Semantics.truth
                    (Semantics.binding [("x", true); ("y", false)])
                    (expression_of Tests.get_transitions t) = true.
Proof.
  apply (evaluate_complete_bindings Tests.get_transitions {[ 1; 2 ]}
           [("x", true); ("y", false)]).
  intros t Ht. assert (t = 1 ∨ t = 2) as [-> | ->] by set_solver;
    apply (bool_decide_unpack _); vm_compute; exact I.
Defined.

(** ** Conditions *)

(** X21: lowering never fails: for every expression and every context
    [_convert_r] returns a text; the lookup of the operation and the two
    ConditionConversionError branches are never the outcome, nor is a
    failure of an operand. *)
Theorem lowering_never_fails (e : Expression) (p : nat) :
  (∃ s, _convert_r e p = Ok s) ∧ (∃ s, _vhdl e = Ok s).
Proof. split; apply convert_total. Qed.

Section ExclusiveFacts.
Variable dnf_simplify : Expression → Expression.
Variable h : Heap.

Lemma combinations2_short {A} (l : list A) :
  length l < 2 → TransitionMethods.combinations2 l = [].
Proof. destruct l as [|a [|b l]]; cbn; [done | done | lia]. Qed.

Lemma exclusive_short cs :
  size cs < 2 → TransitionMethods.exclusive dnf_simplify h cs = true.
Proof.
  intros Hsize. unfold TransitionMethods.exclusive.
  rewrite combinations2_short; [done|].
  unfold TransitionMethods.expressions. by rewrite length_fmap.
Qed.

Lemma size_conditions_le ts : size (TransitionMethods.conditions h ts) ≤ size ts.
Proof.
  unfold TransitionMethods.conditions.
  etrans; [apply size_list_to_set_le|]. by rewrite length_fmap.
Qed.

End ExclusiveFacts.

(** X22: a ConditionSet with fewer than two members is exclusive, whatever
    the normal form of the expressions: no pair is compared. So is a
    TransitionSet with fewer than two transitions, or whose transitions
    share one Condition object. *)
Theorem exclusive_fewer_than_two (dnf_simplify : Expression → Expression)
    (h : Heap) (cs ts : gset ref) :
  (size cs < 2 → TransitionMethods.exclusive dnf_simplify h cs = true)
  ∧ (size ts < 2 ∨ size (TransitionMethods.conditions h ts) < 2 →
     TransitionMethods.is_exclusive dnf_simplify h ts = true).
Proof.
  split; [apply exclusive_short|].
  intros Hsize. apply exclusive_short.
  pose proof (size_conditions_le h ts). lia.
Qed.

(** ** The machine *)
Section MachineFacts.
Import FilteredCollections FilteredSetMethods MooreFiniteStateMachine.

Lemma StateSet_refs_values s : StateSet_refs (StateSet_values s) = s.
Proof.
  apply set_eq; intros r. unfold StateSet_refs, StateSet_values.
  rewrite elem_of_set_omap. setoid_rewrite elem_of_map. split.
  - intros [v [[r' [-> Hr']] Hv]]. by injection Hv as <-.
  - intros Hr. exists (Obj AbstractState r). split; [by exists r | done].
Qed.

Lemma TransitionSet_refs_values s :
  TransitionSet_refs (TransitionSet_values s) = s.
Proof.
  apply set_eq; intros r. unfold TransitionSet_refs, TransitionSet_values.
  rewrite elem_of_set_omap. setoid_rewrite elem_of_map. split.
  - intros [v [[r' [-> Hr']] Hv]]. by injection Hv as <-.
  - intros Hr. exists (Obj AbstractTransition r). split; [by exists r | done].
Qed.

Lemma add_Transition s r :
  add AbstractTransition (TransitionSet_values s) (Obj AbstractTransition r)
  = Ok (TransitionSet_values ({[ r ]} ∪ s)).
Proof.
  unfold add, _value_filter, TransitionSet_values. cbn. f_equal.
  by rewrite set_map_union_L, set_map_singleton_L.
Qed.

Lemma add_state_State m r default :
  add_state m (Obj AbstractState r) default
  = Ok {| _states := {[ r ]} ∪ _states m;
          _transitions := _transitions m;
          _default := if default then Some (Obj AbstractState r)
                      else _default m;
          default_flag := if default then <[r := true]> (default_flag m)
                          else default_flag m |}.
Proof.
  unfold add_state. rewrite add_State. cbn. rewrite StateSet_refs_values.
  by destruct default.
Qed.

Lemma add_state_not_State m v default :
  isinstance v AbstractState = false → add_state m v default = Raise TypeError.
Proof.
  intros Hv. unfold add_state, add, _value_filter. by rewrite Hv.
Qed.

Lemma add_transition_Transition m r :
  add_transition m (Obj AbstractTransition r)
  = Ok {| _states := _states m;
          _transitions := {[ r ]} ∪ _transitions m;
          _default := _default m;
          default_flag := default_flag m |}.
Proof.
  unfold add_transition. rewrite add_Transition. cbn.
  by rewrite TransitionSet_refs_values.
Qed.

End MachineFacts.

(** X23: the default state of a machine is the State last added with
    [default=True]; the [default] flag of a State that was the default
    before stays set: after two such additions both States are marked
    and the machine refers to the second. *)
Theorem add_state_default_twice (m : MooreFiniteStateMachine.Machine)
    (a b : ref) :
  ∃ m1 m2,
    MooreFiniteStateMachine.add_state m
      (FilteredCollections.Obj FilteredCollections.AbstractState a) true = Ok m1
    ∧ MooreFiniteStateMachine.add_state m1
        (FilteredCollections.Obj FilteredCollections.AbstractState b) true
      = Ok m2
    ∧ MooreFiniteStateMachine.default_state m2
      = Some (FilteredCollections.Obj FilteredCollections.AbstractState b)
    ∧ MooreFiniteStateMachine.default_flag m2 !! a = Some true
    ∧ MooreFiniteStateMachine.default_flag m2 !! b = Some true
    ∧ MooreFiniteStateMachine._states m2
      = {[ a; b ]} ∪ MooreFiniteStateMachine._states m.
Proof.
  eexists _, _. rewrite !add_state_State. cbn.
  split; [reflexivity|]. split; [reflexivity|]. split; [reflexivity|].
  cbn. split; [|split].
  - destruct (decide (a = b)) as [-> | Hne].
    + by rewrite lookup_insert_eq.
    + by rewrite lookup_insert_ne, lookup_insert_eq.
  - by rewrite lookup_insert_eq.
  - set_solver.
Qed.

(** X24: a State added to a machine is found by [get_state] under its
    name, the States and the default of the machine are otherwise kept,
    and a State added without [default] does not change the default;
    a value that is not a State is refused with TypeError. *)
Theorem add_state_get_state (states : gmap ref State)
    (m : MooreFiniteStateMachine.Machine) (r : ref) (default : bool)
    (v : FilteredCollections.value) :
  (∃ m', MooreFiniteStateMachine.add_state m
           (FilteredCollections.Obj FilteredCollections.AbstractState r)
           default = Ok m'
     ∧ r ∈ MooreFiniteStateMachine.get_state states m' (name (states !!! r))
     ∧ (∀ n, MooreFiniteStateMachine.get_state states m n
             ⊆ MooreFiniteStateMachine.get_state states m' n)
     ∧ (default = false →
        MooreFiniteStateMachine.default_state m'
        = MooreFiniteStateMachine.default_state m)
     ∧ MooreFiniteStateMachine._transitions m'
       = MooreFiniteStateMachine._transitions m)
  ∧ (FilteredCollections.isinstance v FilteredCollections.AbstractState = false →
     MooreFiniteStateMachine.add_state m v default = Raise TypeError).
Proof.
  split; [|by apply add_state_not_State].
  eexists. rewrite add_state_State. split; [reflexivity|].
  unfold MooreFiniteStateMachine.get_state, __getitem__. cbn.
  split; [|split; [|split]].
  - apply elem_of_filter. split; [done | set_solver].
  - intros n x. rewrite !elem_of_filter. set_solver.
  - by intros ->.
  - done.
Qed.

(** X25: a machine keeps transitions by identity: adding a Transition
    that is already there changes nothing, and a new Transition object
    is added even when a member has the same source, destination and
    condition. *)
Theorem add_transition_identity (h : Heap)
    (m : MooreFiniteStateMachine.Machine) (t : ref) :
  (t ∈ MooreFiniteStateMachine._transitions m →
   MooreFiniteStateMachine.add_transition m
     (FilteredCollections.Obj FilteredCollections.AbstractTransition t) = Ok m)
  ∧ (t ∉ MooreFiniteStateMachine._transitions m →
     ∃ m', MooreFiniteStateMachine.add_transition m
             (FilteredCollections.Obj FilteredCollections.AbstractTransition t)
           = Ok m'
       ∧ size (MooreFiniteStateMachine._transitions m')
         = S (size (MooreFiniteStateMachine._transitions m))
       ∧ ∀ u, u ∈ MooreFiniteStateMachine._transitions m →
              transitions h !!! u = transitions h !!! t →
              u ∈ MooreFiniteStateMachine._transitions m'
              ∧ t ∈ MooreFiniteStateMachine._transitions m' ∧ u ≠ t).
Proof.
  rewrite add_transition_Transition. split.
  - intros Ht. destruct m as [sts trs d fl]. cbn in *. do 2 f_equal.
    set_solver.
  - intros Ht. eexists. split; [reflexivity|]. cbn. split.
    + rewrite size_union by set_solver. by rewrite size_singleton.
    + intros u Hu _. set_solver.
Qed.

(** X26: the inputs of a machine are the symbols of the conditions of its
    transitions: a name is an input exactly when the condition of some
    transition mentions it. *)
Theorem machine_inputs (h : Heap) (m : MooreFiniteStateMachine.Machine)
    (n : string) :
  n ∈ MooreFiniteStateMachine.inputs h m
  ↔ ∃ t, t ∈ MooreFiniteStateMachine._transitions m
         ∧ n ∈ symbols (expression_of h t).
Proof.
  unfold MooreFiniteStateMachine.inputs, TransitionMethods.ConditionSet_inputs,
    TransitionMethods.conditions, Condition.inputs, expression_of.
  rewrite elem_of_union_list. split.
  - intros [X [HX Hn]]. apply list_elem_of_fmap in HX as [c [-> Hc]].
    apply elem_of_elements, elem_of_list_to_set, list_elem_of_fmap in Hc
      as [t [-> Ht]].
    exists t. by rewrite <- elem_of_elements.
  - intros [t [Ht Hn]]. eexists. split; [|exact Hn].
    apply list_elem_of_fmap. eexists. split; [reflexivity|].
    apply elem_of_elements, elem_of_list_to_set, list_elem_of_fmap.
    exists t. by rewrite elem_of_elements.
Qed.

(** ** VHDL identifiers *)
Section IdentifierFacts.
Import Hdl.

Lemma letter_not_underscore c : is_letter c = true → Ascii.eqb c "_" = false.
Proof.
  intros Hc. destruct (Ascii.eqb_spec c "_") as [-> | ?]; [|done].
  vm_compute in Hc. discriminate.
Qed.

Lemma digit_not_underscore c : is_digit c = true → Ascii.eqb c "_" = false.
Proof.
  intros Hc. destruct (Ascii.eqb_spec c "_") as [-> | ?]; [|done].
  vm_compute in Hc. discriminate.
Qed.

Lemma all_alnum_remove_underscores s :
  all_alnum (remove_underscores s) = identifier_tail s.
Proof.
  induction s as [|c s IH]; cbn; [done|].
  destruct (Ascii.eqb c "_") eqn:Hu.
  - rewrite IH. by rewrite orb_true_r.
  - cbn. by rewrite IH, orb_false_r.
Qed.

Lemma check_identifier c s :
  check (String c s) = Ok (identifier (String c s)).
Proof.
  unfold check, identifier. f_equal.
  destruct (is_letter c) eqn:Hc; [|done]. cbn [andb].
  cbn [remove_underscores]. rewrite (letter_not_underscore c Hc).
  cbn [isalnum all_alnum]. rewrite Hc. cbn.
  apply all_alnum_remove_underscores.
Qed.

End IdentifierFacts.

(** X27: on ASCII text, [VHDLIdentifier] accepts exactly the texts made
    of a letter followed by letters, digits and underscores, and refuses
    the others with ValueError, except the empty text, on which [check]
    fails with IndexError. *)
Theorem VHDLIdentifier_accepts (s : string) :
  Hdl.ascii_text s →
  (Hdl.VHDLIdentifier s = Ok s ↔ Hdl.identifier s = true)
  ∧ (Hdl.VHDLIdentifier s = Raise ValueError
     ↔ s ≠ "" ∧ Hdl.identifier s = false)
  ∧ (Hdl.VHDLIdentifier s = Raise IndexError ↔ s = "")
  ∧ (s ≠ "" → Hdl.check s = Ok (Hdl.identifier s)).
Proof.
  intros _. destruct s as [|c s].
  - cbn. repeat split; try done; intros [? ?]; done.
  - unfold Hdl.VHDLIdentifier. rewrite check_identifier. cbn [bind].
    destruct (Hdl.identifier (String c s)); cbn; repeat split; try done;
      try (intros [? ?]; done).
Qed.

Lemma VHDLIdentifier_accepts_witness :
  (Hdl.VHDLIdentifier "state_1" = Ok "state_1"
   ↔ Hdl.identifier "state_1" = true)
  ∧ (Hdl.VHDLIdentifier "state_1" = Raise ValueError
     ↔ "state_1" ≠ "" ∧ Hdl.identifier "state_1" = false)
  ∧ (Hdl.VHDLIdentifier "state_1" = Raise IndexError ↔ "state_1" = "")
  ∧ ("state_1" ≠ "" → Hdl.check "state_1" = Ok (Hdl.identifier "state_1")).
Proof.
  apply (VHDLIdentifier_accepts "state_1"). cbn [Hdl.ascii_text].
  repeat split; try exact I; apply Nat.ltb_lt; reflexivity.
Defined.
